(** * IPASN-History: the RIPE loader ([bin/ripe_loader.py])

    A shallow embedding of [routeview] (the walk over the entries of one MRT
    dump and the choice of an origin AS per prefix) and of [RipeLoader]
    ([already_loaded], [update_last], [load_all]) over a model of the Redis
    keys the loader reads and writes, followed by the properties of the
    ingestion pipeline that were checked against that code. *)

From Stdlib Require Import ZArith Lia Ascii String.
From stdpp Require Import base option list gmap strings pretty.

Open Scope string_scope.
Open Scope Z_scope.

(** ** Python values the loader manipulates *)

Module Py.

(** The exceptions that the modelled code paths can raise. *)
Inductive exn :=
| IndexError          (* [all_paths[-1]] on an empty list *)
| UnboundLocalError   (* a local read before any assignment *)
| ValueError          (* [ip_network] on a string that is no network *)
| ResponseError       (* the Redis server refuses a queued command *)
| DecodeError.        (* [BGPDump] cannot open or decode the file *)

(** A computation that returns or raises. *)
Inductive result (A : Type) :=
| Ok (a : A)
| Raise (e : exn).
Arguments Ok {A} a.
Arguments Raise {A} e.

Global Instance result_ret : MRet result := @Ok.
Global Instance result_bind : MBind result := fun A B k m =>
  match m with
  | Ok a => k a
  | Raise e => Raise e
  end.

(** The text handled here (AS paths printed by the dump decoder, ISO dates,
    Redis keys) is ASCII; on ASCII, [str.isnumeric] holds of the ten decimal
    digits and [str.isspace] of the characters below. *)
Definition isdigit_char (c : ascii) : bool :=
  let n := N_of_ascii c in ((48 <=? n) && (n <=? 57))%N.

Definition isspace_char (c : ascii) : bool :=
  let n := N_of_ascii c in
  (((9 <=? n) && (n <=? 13)) || ((28 <=? n) && (n <=? 32)))%N.

Fixpoint all_chars (p : ascii -> bool) (s : string) : bool :=
  match s with
  | EmptyString => true
  | String c s' => p c && all_chars p s'
  end.

(** [s.isnumeric()]: every character is numeric and there is at least one. *)
Definition isnumeric (s : string) : bool :=
  match s with
  | EmptyString => false
  | _ => all_chars isdigit_char s
  end.

(** [s[1:-1]]: the characters from index 1 up to, not including, the last;
    empty when [s] has fewer than three characters. *)
Definition slice_1_m1 (s : string) : string :=
  substring 1 (String.length s - 2) s.

(** [s.split()]: the maximal runs of non-blank characters, in order. [cur]
    is the run being read. *)
Fixpoint split_from (cur : string) (s : string) : list string :=
  match s with
  | EmptyString => match cur with EmptyString => [] | _ => [cur] end
  | String c s' =>
      if isspace_char c
      then match cur with
           | EmptyString => split_from EmptyString s'
           | _ => cur :: split_from EmptyString s'
           end
      else split_from (cur +:+ String c EmptyString) s'
  end.

Definition split (s : string) : list string := split_from EmptyString s.

(** [a > b] on [str]: lexicographic order of the code points. *)
Definition str_gt (a b : string) : bool := String.ltb b a.

(** Truth value of an optional string ([None] and [''] are falsy). *)
Definition truthy (o : option string) : bool :=
  match o with
  | Some (String _ _) => true
  | _ => false
  end.

End Py.

Import Py.

(** ** The dump as the decoder hands it out *)

(** [route.attr.asPath] of one route of a prefix. *)
Record route := { asPath : string }.

(** The fields of a [TableDumpV2] body read by [routeview]. [prefix] is the
    text the f-string prints for [entry.body.prefix]. *)
Record TableDumpV2 := {
  prefix : string;
  prefixLength : Z;
  afi : Z;
  routeEntries : list route
}.

(** [entry.body]: "can be either be TableDumpV1 or TableDumpV2". *)
Inductive body :=
| BodyV1
| BodyV2 (b : TableDumpV2).

(** [socket.AF_INET]. *)
Definition AF_INET : Z := 2.

(** What iterating [BGPDump(bview_file, ...)] gives: the entries of the file,
    or an exception of the decoder. *)
Inductive bview :=
| Decoded (entries : list body)
| Undecodable.

(** ** [routeview] *)

(** The [routes] dictionary, with its two fixed keys. *)
Record routes := {
  v4_routes : list (string * string);
  v6_routes : list (string * string)
}.

(** The locals of [routeview] that live across iterations of the loop over
    entries: [routes], and [best_as], which is unbound ([None]) until the
    first assignment and is never reset. *)
Record locals := {
  loc_routes : routes;
  best_as : option string
}.

Definition initial_locals : locals :=
  {| loc_routes := {| v4_routes := []; v6_routes := [] |}; best_as := None |}.

(** Lines 53-59: the loop over [reversed(all_paths[-1])]. [tokens] is the
    reversed path; the result is the binding of [best_as] after the loop,
    [cur] being its binding before. *)
Fixpoint cleanup_as_sets (tokens : list string) (cur : option string)
  : option string :=
  match tokens with
  | [] => cur
  | asn :: rest =>
      if isnumeric asn then Some asn
      else if isnumeric (slice_1_m1 asn) then Some (slice_1_m1 asn)
      else cleanup_as_sets rest cur
  end.

(** [all_paths[-1]]. *)
Definition last_path (all_paths : list (list string)) : result (list string) :=
  match last all_paths with
  | Some p => Ok p
  | None => Raise IndexError
  end.

Definition add_route (rs : routes) (b : TableDumpV2) (r : string * string)
  : routes :=
  if afi b =? AF_INET
  then {| v4_routes := v4_routes rs ++ [r]; v6_routes := v6_routes rs |}
  else {| v4_routes := v4_routes rs; v6_routes := v6_routes rs ++ [r] |}.

(** One iteration of the loop over the entries (lines 39-64). *)
Definition routeview_entry (st : locals) (entry : body) : result locals :=
  match entry with
  | BodyV1 => Ok st
  | BodyV2 b =>
      let prefix := prefix b +:+ "/" +:+ pretty (prefixLength b) in
      let all_paths := map (fun r => split (asPath r)) (routeEntries b) in
      path ← last_path all_paths;
      let best := cleanup_as_sets (rev path) (best_as st) in
      match best with
      | None => Raise UnboundLocalError
      | Some asn =>
          Ok {| loc_routes := add_route (loc_routes st) b (prefix, asn);
                best_as := best |}
      end
  end.

Fixpoint routeview_entries (st : locals) (entries : list body)
  : result locals :=
  match entries with
  | [] => Ok st
  | e :: rest => st' ← routeview_entry st e; routeview_entries st' rest
  end.

Definition routeview (bview_file : bview) : result routes :=
  match bview_file with
  | Undecodable => Raise DecodeError
  | Decoded entries =>
      st ← routeview_entries initial_locals entries; Ok (loc_routes st)
  end.

(** ** The [ipaddress] module, as far as the loader uses it *)

Module ipaddress.

Inductive version := IPv4 | IPv6.

(** An [IPv4Network] or [IPv6Network] object. *)
Record network := {
  net_version : version;
  network_address : Z;
  prefixlen : Z
}.

Definition max_prefixlen (n : network) : Z :=
  match net_version n with IPv4 => 32 | IPv6 => 128 end.

Definition ALL_ONES (n : network) : Z := 2 ^ max_prefixlen n - 1.

Definition netmask (n : network) : Z :=
  Z.lxor (ALL_ONES n) (Z.shiftr (ALL_ONES n) (prefixlen n)).

Definition hostmask (n : network) : Z := Z.lxor (netmask n) (ALL_ONES n).

Definition broadcast_address (n : network) : Z :=
  Z.lor (network_address n) (hostmask n).

(** [network.num_addresses]. *)
Definition num_addresses (n : network) : Z :=
  broadcast_address n - network_address n + 1.

(** What the constructors guarantee of a network built with [strict=True]:
    the length is within the address width and no host bit is set. *)
Definition strict (n : network) : Prop :=
  0 <= prefixlen n <= max_prefixlen n /\
  0 <= network_address n < 2 ^ max_prefixlen n /\
  Z.land (network_address n) (hostmask n) = 0.

(** The two library entry points the loader calls. Their text handling
    (IPv6 compression and the like) is the library's business; the loader
    relies on the object being strict. *)
Class Library := {
  ip_network : string -> result network;
  str_network : network -> string;
  ip_network_strict : forall s n, ip_network s = Ok n -> strict n
}.

End ipaddress.

Import ipaddress.

(** ** Redis *)

Module Redis.

(** A database, as far as the loader touches it: the keys that hold sets and
    the keys that hold strings. The names the loader gives to sets end in
    [dates], [asns] or an AS number and those it gives to strings in [last]
    or [ipcount], so no command of the loader meets a key of the other
    kind. *)
Record db := {
  sets : gmap string (gset string);
  strings : gmap string string
}.

Definition empty : db := {| sets := ∅; strings := ∅ |}.

Definition smembers (d : db) (name : string) : gset string :=
  default ∅ (sets d !! name).

Definition sismember (d : db) (name value : string) : bool :=
  bool_decide (value ∈ smembers d name).

Definition get (d : db) (name : string) : option string :=
  strings d !! name.

(** The commands the loader queues on a pipeline. *)
Inductive command :=
| SADD (name : string) (values : list string)
| SET (name : string) (value : string).

(** [SADD] takes at least one member; the server refuses it otherwise. *)
Definition well_formed (c : command) : bool :=
  match c with
  | SADD _ [] => false
  | _ => true
  end.

Definition run (d : db) (c : command) : db :=
  match c with
  | SADD name values =>
      {| sets := <[name := list_to_set values ∪ smembers d name]> (sets d);
         strings := strings d |}
  | SET name value =>
      {| sets := sets d; strings := <[name := value]> (strings d) |}
  end.

(** [pipeline().execute()]: the queue is sent as one MULTI/EXEC
    transaction. A command refused when it is queued aborts the
    transaction, nothing is applied and [execute] raises; otherwise the
    commands are applied in order. *)
Definition execute (queue : list command) (d : db) : result db :=
  if forallb well_formed queue then Ok (foldl run d queue)
  else Raise ResponseError.

End Redis.

(** ** [RipeLoader] *)

Inductive level := DEBUG | INFO.

(** What a run of the loader reads and changes outside of its own locals:
    the storage database, the field [first] of the hash
    [META:expected_interval] of the cache, and the records handed to the
    logger. *)
Record world := {
  storagedb : Redis.db;
  expected_interval_first : option string;
  logged : list (level * string)
}.

(** A method of the loader: it changes the world and returns or raises; what
    it did before raising stays done. *)
Definition io (A : Type) : Type := world -> result A * world.

Global Instance io_ret : MRet io := fun A a w => (Ok a, w).
Global Instance io_bind : MBind io := fun A B k m w =>
  match m w with
  | (Ok a, w') => k a w'
  | (Raise e, w') => (Raise e, w')
  end.

Definition lift {A} (r : result A) : io A := fun w => (r, w).

Definition logger (l : level) (msg : string) : io unit := fun w =>
  (Ok tt, {| storagedb := storagedb w;
             expected_interval_first := expected_interval_first w;
             logged := logged w ++ [(l, msg)] |}).

Definition with_db (w : world) (d : Redis.db) : world :=
  {| storagedb := d;
     expected_interval_first := expected_interval_first w;
     logged := logged w |}.

Definition db_sismember (name value : string) : io bool := fun w =>
  (Ok (Redis.sismember (storagedb w) name value), w).

Definition db_get (name : string) : io (option string) := fun w =>
  (Ok (Redis.get (storagedb w) name), w).

Definition db_set (name value : string) : io unit := fun w =>
  (Ok tt, with_db w (Redis.run (storagedb w) (Redis.SET name value))).

Definition pipeline_execute (queue : list Redis.command) : io unit := fun w =>
  match Redis.execute queue (storagedb w) with
  | Ok d => (Ok tt, with_db w d)
  | Raise e => (Raise e, w)
  end.

Definition cache_hget_first : io (option string) := fun w =>
  (Ok (expected_interval_first w), w).

(** The keys of [routes]. *)
Inductive address_family := v4 | v6.

Global Instance address_family_eq_dec : EqDecision address_family.
Proof. solve_decision. Defined.

Definition family_name (af : address_family) : string :=
  match af with v4 => "v4" | v6 => "v6" end.

Definition items (r : routes) : list (address_family * list (string * string)) :=
  [(v4, v4_routes r); (v6, v6_routes r)].

(** A value of [to_import]: [{address_family: set(), 'ipcount': 0}]. *)
Record as_data := {
  prefixes : gset string;
  ipcount : Z
}.

Definition new_as_data : as_data := {| prefixes := ∅; ipcount := 0 |}.

(** A file found by the glob: its path, the ISO date computed from its name
    (lines 95-96) and what decoding it gives. *)
Record candidate := {
  path : string;
  date : string;
  content : bview
}.

Record RipeLoader := { collector : string }.

Definition key_prefix (self : RipeLoader) : string := "ripe_" +:+ collector self.

Section Loader.

Context `{Library}.
Variable self : RipeLoader.

Definition dates_key (af : address_family) : string :=
  key_prefix self +:+ "|" +:+ family_name af +:+ "|dates".

Definition last_key (af : address_family) : string :=
  key_prefix self +:+ "|" +:+ family_name af +:+ "|last".

Definition asns_key (af : address_family) (date : string) : string :=
  key_prefix self +:+ "|" +:+ family_name af +:+ "|" +:+ date +:+ "|asns".

Definition prefixes_key (af : address_family) (date asn : string) : string :=
  key_prefix self +:+ "|" +:+ family_name af +:+ "|" +:+ date +:+ "|" +:+ asn.

Definition ipcount_key (af : address_family) (date asn : string) : string :=
  prefixes_key af date asn +:+ "|ipcount".

Definition already_loaded (date : string) : io bool :=
  in_v4 ← db_sismember (dates_key v4) date;
  if in_v4 : bool then db_sismember (dates_key v6) date else mret false.

Definition update_last (af : address_family) (date : string) : io unit :=
  cur_last ← db_get (last_key af);
  if negb (truthy cur_last) || str_gt date (default "" cur_last)
  then db_set (last_key af) date
  else mret tt.

(** Lines 112-114, for one [(prefix, asn)] of [entries]. *)
Definition import_entry (to_import : gmap string as_data)
    (entry : string * string) : result (gmap string as_data) :=
  let '(prefix, asn) := entry in
  network ← ip_network prefix;
  let data := default new_as_data (to_import !! asn) in
  Ok (<[asn := {| prefixes := {[str_network network]} ∪ prefixes data;
                  ipcount := ipcount data + num_addresses network |}]>
        to_import).

(** Lines 110-114. *)
Fixpoint import_entries (to_import : gmap string as_data)
    (entries : list (string * string)) : result (gmap string as_data) :=
  match entries with
  | [] => Ok to_import
  | e :: rest =>
      to_import' ← import_entry to_import e; import_entries to_import' rest
  end.

(** Lines 116-120: the commands queued for one family. *)
Definition queue_as (af : address_family) (date : string)
    (item : string * as_data) : list Redis.command :=
  [Redis.SADD (prefixes_key af date item.1) (elements (prefixes item.2));
   Redis.SET (ipcount_key af date item.1) (pretty (ipcount item.2))].

Definition queue_family (af : address_family) (date : string)
    (to_import : gmap string as_data) : list Redis.command :=
  Redis.SADD (dates_key af) [date]
  :: Redis.SADD (asns_key af date) (map_to_list to_import).*1
  :: flat_map (queue_as af date) (map_to_list to_import).

(** Lines 110-123: the body of the loop over [routes.items()]. *)
Definition load_family (date : string)
    (item : address_family * list (string * string)) : io unit :=
  let '(af, entries) := item in
  to_import ← lift (import_entries ∅ entries);
  let p := queue_family af date to_import in
  _ ← logger DEBUG "All keys ready";
  _ ← pipeline_execute p;
  update_last af date.

Fixpoint load_families (date : string)
    (its : list (address_family * list (string * string))) : io unit :=
  match its with
  | [] => mret tt
  | it :: rest => _ ← load_family date it; load_families date rest
  end.

(** Lines 106-126: what is done with a file that is not skipped. *)
Definition load_file (c : candidate) : io unit :=
  _ ← logger INFO ("Loading " +:+ path c);
  routes ← lift (routeview (content c));
  _ ← logger DEBUG "Content loaded";
  _ ← load_families (date c) (items routes);
  _ ← logger INFO ("Done with " +:+ path c);
  logger DEBUG "Done.".

(** Lines 95-126: the body of the loop over the files. *)
Definition load_candidate (c : candidate) : io unit :=
  oldest_to_load ← cache_hget_first;
  if truthy oldest_to_load && str_gt (default "" oldest_to_load) (date c)
  then mret tt
  else
    loaded ← already_loaded (date c);
    if loaded : bool
    then logger DEBUG ("Already loaded " +:+ path c)
    else load_file c.

(** [load_all], over the files in the order of
    [sorted(self.storage_root.glob('**/*.gz'), reverse=True)]. *)
Fixpoint load_all (files : list candidate) : io unit :=
  match files with
  | [] => mret tt
  | c :: rest => _ ← load_candidate c; load_all rest
  end.

End Loader.

(** [RipeLoader.__init__] (lines 71-78), as far as the database sees it: the
    loader takes its collector and adds its key prefix to the set
    [prefixes]. *)
Definition __init__ (collector : string) : io RipeLoader := fun w =>
  let self := {| collector := collector |} in
  (Ok self,
   with_db w (Redis.run (storagedb w)
                (Redis.SADD "prefixes" [key_prefix self]))).

(** ** An instance of the library: networks in plain text

    [ip_network] and [str] on the texts [routeview] builds: a dotted quad or
    colon-separated hextets (with at most one [::]), a slash and a decimal
    length. The netmask, scoped and IPv4-in-IPv6 notations are left out: such
    a text raises here. *)

Module PlainText.

(** [s.split(sep)] for a one-character separator. *)
Fixpoint split_on (sep : ascii) (cur : string) (s : string) : list string :=
  match s with
  | EmptyString => [cur]
  | String c s' =>
      if Ascii.eqb c sep then cur :: split_on sep EmptyString s'
      else split_on sep (cur +:+ String c EmptyString) s'
  end.

Fixpoint join (sep : string) (l : list string) : string :=
  match l with
  | [] => EmptyString
  | [x] => x
  | x :: rest => x +:+ sep +:+ join sep rest
  end.

Definition code (c : ascii) : Z := Z.of_N (N_of_ascii c).

Fixpoint int_of_digits (acc : Z) (s : string) : Z :=
  match s with
  | EmptyString => acc
  | String c s' => int_of_digits (10 * acc + (code c - 48)) s'
  end.

Definition leading_zero (s : string) : bool :=
  match s with
  | String "0" (String _ _) => true
  | _ => false
  end.

Definition parse_octet (s : string) : option Z :=
  if isnumeric s && (Z.of_nat (String.length s) <=? 3) && negb (leading_zero s)
  then (let v := int_of_digits 0 s in if v <=? 255 then Some v else None)
  else None.

Definition parse_prefixlen (width : Z) (s : string) : option Z :=
  if isnumeric s
  then (let v := int_of_digits 0 s in if v <=? width then Some v else None)
  else None.

Definition parse_v4_address (s : string) : option Z :=
  match split_on "." EmptyString s with
  | [a; b; c; d] =>
      a ← parse_octet a; b ← parse_octet b;
      c ← parse_octet c; d ← parse_octet d;
      Some (((a * 256 + b) * 256 + c) * 256 + d)
  | _ => None
  end.

Definition hex_value (c : ascii) : option Z :=
  let n := code c in
  if (48 <=? n) && (n <=? 57) then Some (n - 48)
  else if (97 <=? n) && (n <=? 102) then Some (n - 87)
  else if (65 <=? n) && (n <=? 70) then Some (n - 55)
  else None.

Fixpoint int_of_hex (acc : Z) (s : string) : option Z :=
  match s with
  | EmptyString => Some acc
  | String c s' => v ← hex_value c; int_of_hex (16 * acc + v) s'
  end.

Definition parse_hextet (s : string) : option Z :=
  match s with
  | EmptyString => None
  | _ => if Z.of_nat (String.length s) <=? 4 then int_of_hex 0 s else None
  end.

Fixpoint shift_in_hextets (acc : Z) (parts : list string) : option Z :=
  match parts with
  | [] => Some acc
  | h :: rest => v ← parse_hextet h; shift_in_hextets (acc * 65536 + v) rest
  end.

Definition is_empty (s : string) : bool :=
  match s with EmptyString => true | _ => false end.

(** The indices [1 .. len-2] at which [parts] holds an empty string. *)
Definition inner_gaps (parts : list string) : list nat :=
  filter (fun i => is_empty (default "x" (parts !! i)) = true)
         (seq 1 (length parts - 2)).

(** The parts on one side of the [::]: an empty outermost part is allowed
    only when it is the side's only part. *)
Definition side (outer : option string) (parts : list string)
  : option (list string) :=
  if is_empty (default "x" outer)
  then (if (length parts =? 1)%nat then Some [] else None)
  else Some parts.

Definition parse_v6_address (s : string) : option Z :=
  let parts := split_on ":" EmptyString s in
  let n := length parts in
  if ((n <? 3) || (9 <? n))%nat then None
  else match inner_gaps parts with
       | [] => if (n =? 8)%nat then shift_in_hextets 0 parts else None
       | [skip] =>
           hi ← side (head parts) (take skip parts);
           lo ← side (last parts) (drop (S skip) parts);
           let skipped := 8 - Z.of_nat (length hi + length lo) in
           if skipped <? 1 then None
           else (h ← shift_in_hextets 0 hi;
                 shift_in_hextets (h * 65536 ^ skipped) lo)
       | _ => None
       end.

Definition checked (net : network) : option network :=
  if (Z.land (network_address net) (hostmask net) =? 0)
     && (0 <=? network_address net)
     && (network_address net <? 2 ^ max_prefixlen net)
     && (0 <=? prefixlen net) && (prefixlen net <=? max_prefixlen net)
  then Some net else None.

Definition parse_as (v : version) (addr len : string) : option network :=
  ip ← match v with
       | IPv4 => parse_v4_address addr
       | IPv6 => parse_v6_address addr
       end;
  n ← parse_prefixlen (match v with IPv4 => 32 | IPv6 => 128 end) len;
  checked {| net_version := v; network_address := ip; prefixlen := n |}.

(** [ip_network]: an [IPv4Network] if the text is one, else an
    [IPv6Network], else [ValueError]. *)
Definition ip_network (s : string) : result network :=
  match split_on "/" EmptyString s with
  | [addr; len] =>
      match parse_as IPv4 addr len with
      | Some net => Ok net
      | None =>
          match parse_as IPv6 addr len with
          | Some net => Ok net
          | None => Raise ValueError
          end
      end
  | _ => Raise ValueError
  end.

Definition octet (ip : Z) (i : Z) : string :=
  pretty (Z.land (Z.shiftr ip (8 * i)) 255).

Definition hex_digit (v : Z) : ascii :=
  ascii_of_N (Z.to_N (if v <? 10 then 48 + v else 87 + v)).

Fixpoint strip_zeros (ds : list Z) : list Z :=
  match ds with
  | 0 :: (_ :: _) as rest => strip_zeros rest
  | _ => ds
  end.

(** ['%x' % v] for a hextet. *)
Definition hextet_text (v : Z) : string :=
  string_of_list_ascii
    (map hex_digit
         (strip_zeros [v / 4096; (v / 256) mod 16; (v / 16) mod 16; v mod 16])).

Definition hextets (ip : Z) : list Z :=
  map (fun i => Z.land (Z.shiftr ip (16 * (7 - Z.of_nat i))) 65535) (seq 0 8).

(** The first longest run of zero hextets, as [(start, length)]; [cur] is
    the run being read. *)
Fixpoint best_run (i : nat) (cur best : nat * nat) (hs : list Z) : nat * nat :=
  match hs with
  | [] => best
  | h :: rest =>
      if h =? 0
      then (let cur' := (if (cur.2 =? 0)%nat then i else cur.1, S cur.2) in
            best_run (S i) cur' (if (best.2 <? cur'.2)%nat then cur' else best) rest)
      else best_run (S i) (0%nat, 0%nat) best rest
  end.

Definition v6_address_text (ip : Z) : string :=
  let hs := hextets ip in
  let '(start, len) := best_run 0 (0%nat, 0%nat) (0%nat, 0%nat) hs in
  if (1 <? len)%nat
  then join ":" (map hextet_text (take start hs)) +:+ "::"
       +:+ join ":" (map hextet_text (drop (start + len) hs))
  else join ":" (map hextet_text hs).

Definition str (n : network) : string :=
  match net_version n with
  | IPv4 =>
      octet (network_address n) 3 +:+ "." +:+ octet (network_address n) 2
      +:+ "." +:+ octet (network_address n) 1 +:+ "."
      +:+ octet (network_address n) 0
  | IPv6 => v6_address_text (network_address n)
  end +:+ "/" +:+ pretty (prefixlen n).

End PlainText.

Lemma checked_strict net net' : PlainText.checked net = Some net' -> strict net'.
Proof.
  unfold PlainText.checked, strict. intros Hc.
  case_match; [|discriminate]. simplify_eq.
  repeat match goal with
         | Hb : _ && _ = true |- _ => apply andb_true_iff in Hb as [Hb ?]
         end.
  lia.
Qed.

Lemma plain_ip_network_strict s n : PlainText.ip_network s = Ok n -> strict n.
Proof.
  unfold PlainText.ip_network, PlainText.parse_as. intros Hs.
  repeat (case_match; simplify_eq);
    match goal with
    | Hp : _ ≫= _ = Some _ |- _ =>
        apply bind_Some in Hp as (? & _ & Hp);
        apply bind_Some in Hp as (? & _ & Hp);
        by apply checked_strict in Hp
    end.
Qed.

Global Instance plain_text : Library := {|
  ip_network := PlainText.ip_network;
  str_network := PlainText.str;
  ip_network_strict := plain_ip_network_strict
|}.

(** * Notions and samples the properties are stated with *)

Definition is_table_dump_v2 (e : body) : bool :=
  match e with BodyV2 _ => true | BodyV1 => false end.

(** The later of the pointer and a date, in the order of [str]. *)
Definition later_of (cur : option string) (date : string) : string :=
  match cur with
  | None => date
  | Some c => if String.ltb c date then date else c
  end.

Definition last_of (self : RipeLoader) (af : address_family) (w : world)
  : option string :=
  Redis.get (storagedb w) (last_key self af).

(** A sequence of calls of [update_last]. *)
Fixpoint update_last_calls (self : RipeLoader)
    (calls : list (address_family * string)) (w : world) : world :=
  match calls with
  | [] => w
  | (af, date) :: rest =>
      update_last_calls self rest (update_last self af date w).2
  end.

(** Whether a file is passed over as too old (lines 98-101). *)
Definition too_old (w : world) (c : candidate) : bool :=
  truthy (expected_interval_first w)
  && str_gt (default "" (expected_interval_first w)) (date c).

(** Whether both families hold a date (what [already_loaded] answers). *)
Definition loaded_in (self : RipeLoader) (d : Redis.db) (date : string) : bool :=
  Redis.sismember d (dates_key self v4) date
  && Redis.sismember d (dates_key self v6) date.

(** The loaded dates of a family. *)
Definition dates_of (self : RipeLoader) (w : world) (af : address_family)
  : gset string :=
  Redis.smembers (storagedb w) (dates_key self af).

(** In a database written by the loader alone, a date is recorded for v6
    only after it has been recorded for v4. *)
Definition v4_first (self : RipeLoader) (w : world) : Prop :=
  dates_of self w v6 ⊆ dates_of self w v4.

Definition Zsum (l : list Z) : Z := foldr Z.add 0 l.

(** The addresses a prefix of length [prefixlen] covers in its family. *)
Definition addresses (n : network) : Z := 2 ^ (max_prefixlen n - prefixlen n).

Section Networks.

Context `{Library}.

(** The networks of the entries of a family that are attributed to an AS,
    one for each entry, in the order of the file. *)
Fixpoint networks_of (asn : string) (entries : list (string * string))
  : list network :=
  match entries with
  | [] => []
  | (prefix, a) :: rest =>
      match ip_network prefix with
      | Ok n => if decide (a = asn) then n :: networks_of asn rest
                else networks_of asn rest
      | Raise _ => networks_of asn rest
      end
  end.

(** The addresses of the prefix printed as [text], if it is one of
    [nets]. *)
Definition addresses_of_text (nets : list network) (text : string) : Z :=
  match List.find (fun n => bool_decide (str_network n = text)) nets with
  | Some n => addresses n
  | None => 0
  end.

(** The sum the specification asks for: one term for each distinct prefix
    of the set. *)
Definition sum_over_distinct_prefixes (nets : list network)
    (prefixes : gset string) : Z :=
  Zsum (addresses_of_text nets <$> elements prefixes).

End Networks.

(** The [TableDumpV2] bodies of a dump, in the order of the file. *)
Definition table_dumps_v2 (entries : list body) : list TableDumpV2 :=
  omap (fun e => match e with BodyV2 b => Some b | BodyV1 => None end) entries.

(** The text [routeview] prints for the prefix of an entry (line 47). *)
Definition prefix_text (b : TableDumpV2) : string :=
  prefix b +:+ "/" +:+ pretty (prefixLength b).

Definition is_inet (b : TableDumpV2) : bool := afi b =? AF_INET.



(** A [TableDumpV2] entry, for the examples. *)
Definition table_dump_v2 (p : string) (len : Z) (family : Z)
    (paths : list string) : body :=
  BodyV2 {| prefix := p; prefixLength := len; afi := family;
            routeEntries := map Build_route paths |}.

Definition AF_INET6 : Z := 10.

Definition rrc00 : RipeLoader := {| collector := "rrc00" |}.

(** A world with nothing stored, no bound in the cache and nothing logged. *)
Definition fresh_world : world :=
  {| storagedb := Redis.empty; expected_interval_first := None; logged := [] |}.

Definition bound_june : world :=
  {| storagedb := Redis.empty;
     expected_interval_first := Some "2024-06-01T00:00:00";
     logged := [] |}.

(** Three files of the collector: one that decodes and holds a prefix of
    each family, one that cannot be decoded, and one whose IPv6 prefix has
    host bits set. *)
Definition bview_0601 : candidate :=
  {| path := "/data/ripe/rrc00/2024.06/bview.20240601.0000.gz";
     date := "2024-06-01T00:00:00";
     content := Decoded [table_dump_v2 "10.0.0.0" 24 AF_INET ["64496 65000"];
                         table_dump_v2 "2001:db8::" 32 AF_INET6 ["64496 65001"]] |}.


Definition bview_0602_host_bits : candidate :=
  {| path := "/data/ripe/rrc00/2024.06/bview.20240602.0000.gz";
     date := "2024-06-02T00:00:00";
     content := Decoded [table_dump_v2 "10.0.0.0" 24 AF_INET ["64496 65000"];
                         table_dump_v2 "2001:db8::1" 32 AF_INET6 ["64496 65001"]] |}.

(** The entries of one family: two prefixes of AS 65000, the first of them
    also announced by AS 65001. *)
Definition two_prefixes : list (string * string) :=
  [("10.0.0.0/24", "65000"); ("10.0.1.0/24", "65000");
   ("10.0.0.0/24", "65001")].

(** The same, with the first prefix of AS 65000 once more. *)
Definition repeated_prefix : list (string * string) :=
  [("10.0.0.0/24", "65000"); ("10.0.1.0/24", "65000");
   ("10.0.0.0/24", "65000")].

(** * Properties of [routeview] *)

Arguments routeview_entry : simpl never.

Section Routeview.

Lemma routeview_entries_app st pre post :
  routeview_entries st (pre ++ post) =
  st' ← routeview_entries st pre; routeview_entries st' post.
Proof.
  revert st. induction pre as [|e pre IH]; intros st; simpl; [done|].
  destruct (routeview_entry st e) as [st1|err]; simpl; [apply IH|done].
Qed.

Lemma routeview_entries_only_v2 st entries :
  routeview_entries st entries =
  routeview_entries st (List.filter is_table_dump_v2 entries).
Proof.
  revert st. induction entries as [|[|b] rest IH]; intros st; simpl.
  - done.
  - apply IH.
  - destruct (routeview_entry st (BodyV2 b)); simpl; [apply IH|done].
Qed.

(** The scan leaves [best_as] as it was when no token qualifies. *)
Lemma cleanup_as_sets_none_qualifies tokens cur :
  Forall (fun asn => isnumeric asn = false /\
                     isnumeric (slice_1_m1 asn) = false) tokens ->
  cleanup_as_sets tokens cur = cur.
Proof.
  induction 1 as [|asn rest [Hn Hs] _ IH]; simpl; [done|].
  by rewrite Hn, Hs.
Qed.

(** An entry whose last path has no token that qualifies is recorded under
    the AS found for an earlier entry, and raises when there is none. *)
Lemma unresolved_entry_takes_the_previous_as st b path :
  last (map (fun r => split (asPath r)) (routeEntries b)) = Some path ->
  Forall (fun asn => isnumeric asn = false /\
                     isnumeric (slice_1_m1 asn) = false) path ->
  routeview_entry st (BodyV2 b) =
  match best_as st with
  | None => Raise UnboundLocalError
  | Some asn =>
      Ok {| loc_routes :=
              add_route (loc_routes st) b
                (prefix b +:+ "/" +:+ pretty (prefixLength b), asn);
            best_as := Some asn |}
  end.
Proof.
  intros Hlast Hpath. unfold routeview_entry, last_path. rewrite Hlast. simpl.
  rewrite cleanup_as_sets_none_qualifies by (by apply Forall_rev).
  by destruct (best_as st).
Qed.

End Routeview.

(** * Properties of [RipeLoader] *)

(** ** The keys *)

Lemma family_in_key_inj kp a b x y :
  kp +:+ "|" +:+ family_name a +:+ x = kp +:+ "|" +:+ family_name b +:+ y ->
  a = b.
Proof.
  intros Heq. apply (inj (String.app kp)) in Heq.
  destruct a, b; cbv [String.append family_name] in Heq;
    congruence.
Qed.

Lemma last_key_inj self a b : last_key self a = last_key self b -> a = b.
Proof. apply family_in_key_inj. Qed.

Lemma dates_key_inj self a b : dates_key self a = dates_key self b -> a = b.
Proof. apply family_in_key_inj. Qed.

(** ** [update_last] *)

Section UpdateLast.

Variable self : RipeLoader.

Lemma update_last_spec af date w :
  update_last self af date w =
  (Ok tt,
   with_db w (Redis.run (storagedb w)
                (Redis.SET (last_key self af) (later_of (last_of self af w) date))))
  \/ (update_last self af date w = (Ok tt, w) /\
      last_of self af w = Some (later_of (last_of self af w) date)).
Proof.
  unfold update_last, last_of, later_of, mbind, io_bind, db_get, db_set,
    mret, io_ret, str_gt. simpl.
  destruct (Redis.get (storagedb w) (last_key self af)) as [[|c cur]|] eqn:Hcur;
    simpl.
  - left. by destruct date.
  - destruct (String.ltb (String c cur) date); simpl; [by left|by right].
  - by left.
Qed.

Lemma update_last_last_of af date w :
  (update_last self af date w).1 = Ok tt /\
  last_of self af (update_last self af date w).2
  = Some (later_of (last_of self af w) date).
Proof.
  destruct (update_last_spec af date w) as [-> | [-> Hl]]; simpl; [|done].
  split; [done|]. unfold last_of, Redis.get. simpl.
  by rewrite lookup_insert_eq.
Qed.

Lemma update_last_other af af' date w :
  af <> af' ->
  last_of self af' (update_last self af date w).2 = last_of self af' w.
Proof.
  intros Hne.
  destruct (update_last_spec af date w) as [-> | [-> Hl]]; simpl; [|done].
  unfold last_of, Redis.get. simpl.
  rewrite lookup_insert_ne; [done|].
  intros Hk. by apply last_key_inj in Hk.
Qed.

Lemma leb_refl s : String.leb s s = true.
Proof.
  pose proof (reflexivity (R := String.le) s) as Hs.
  unfold String.le in Hs. by apply Is_true_true in Hs.
Qed.

Lemma leb_trans a b c :
  String.leb a b = true -> String.leb b c = true -> String.leb a c = true.
Proof.
  intros Hab Hbc. apply Is_true_true.
  apply (transitivity (R := String.le) (y := b)); by apply Is_true_true.
Qed.

Lemma ltb_leb a b : String.ltb a b = true -> String.leb a b = true.
Proof. unfold String.ltb, String.leb. by destruct (String.compare a b). Qed.

Lemma ltb_false_leb a b : String.ltb a b = false -> String.leb b a = true.
Proof.
  unfold String.ltb, String.leb. rewrite (String.compare_antisym a b).
  by destruct (String.compare b a).
Qed.

Lemma later_of_bounds c date :
  String.leb c (later_of (Some c) date) = true /\
  String.leb date (later_of (Some c) date) = true /\
  (later_of (Some c) date = c \/ later_of (Some c) date = date).
Proof.
  unfold later_of. destruct (String.ltb c date) eqn:Hlt.
  - split; [by apply ltb_leb|]. split; [apply leb_refl|by right].
  - split; [apply leb_refl|]. split; [by apply ltb_false_leb|by left].
Qed.

Lemma update_last_calls_monotone calls af w c :
  last_of self af w = Some c ->
  exists c', last_of self af (update_last_calls self calls w) = Some c' /\
             String.leb c c' = true.
Proof.
  revert w c. induction calls as [|[af' date] rest IH]; intros w c Hc; simpl.
  - exists c. split; [done|apply leb_refl].
  - destruct (decide (af' = af)) as [->|Hne].
    + destruct (update_last_last_of af date w) as [_ Hl]. rewrite Hc in Hl.
      destruct (IH _ _ Hl) as (c' & Hc' & Hle). exists c'. split; [done|].
      eapply leb_trans; [|exact Hle]. apply later_of_bounds.
    + apply IH. by rewrite update_last_other.
Qed.

End UpdateLast.

(** ** What a queue of commands does to the database *)

Module RedisFacts.
Import Redis.

Lemma db_eq (a b : db) : sets a = sets b -> strings a = strings b -> a = b.
Proof. destruct a, b; simpl; congruence. Qed.

(** The members a queue adds under a name. *)
Fixpoint sadd_members (queue : list command) (k : string) : gset string :=
  match queue with
  | [] => ∅
  | SADD name values :: rest =>
      (if decide (name = k) then list_to_set values else ∅)
      ∪ sadd_members rest k
  | SET _ _ :: rest => sadd_members rest k
  end.

Lemma smembers_run d c k :
  smembers (run d c) k = sadd_members [c] k ∪ smembers d k.
Proof.
  destruct c as [name values|name value]; unfold smembers; simpl.
  - destruct (decide (name = k)) as [->|Hne].
    + rewrite lookup_insert_eq. simpl. set_solver.
    + rewrite lookup_insert_ne by done. set_solver.
  - set_solver.
Qed.

Lemma smembers_foldl_run queue d k :
  smembers (foldl run d queue) k = sadd_members queue k ∪ smembers d k.
Proof.
  revert d. induction queue as [|c rest IH]; intros d; simpl.
  - set_solver.
  - rewrite IH, smembers_run. destruct c; simpl; set_solver.
Qed.

End RedisFacts.

(** ** Transformations of the database that can be repeated *)

Section Stable.

Import Redis RedisFacts.

(** How [update_last] decides on the new pointer. *)
Definition advance (cur : option string) (date : string) : string :=
  if negb (truthy cur) || str_gt date (default "" cur)
  then date else default "" cur.

Lemma advance_later_of cur date : advance cur date = later_of cur date.
Proof.
  unfold advance, later_of, str_gt.
  destruct cur as [[|c cur]|]; simpl; [by destruct date|done|done].
Qed.

Lemma advance_idem cur date :
  advance (Some (advance cur date)) date = advance cur date.
Proof.
  unfold advance.
  destruct (negb (truthy cur) || str_gt date (default "" cur)) eqn:Hc.
  - simpl. by repeat case_match.
  - destruct cur as [c|]; [|done]. simpl in *. by rewrite Hc.
Qed.

(** What a transformation does to a string key: it leaves it, writes a
    constant, or moves it on to the date. *)
Inductive write := Constant (v : string) | Advance.

Definition written (date : string) (o : option write) (old : option string)
  : option string :=
  match o with
  | None => old
  | Some (Constant v) => Some v
  | Some Advance => Some (advance old date)
  end.

Definition united (o : option (gset string)) (d : db) (k : string)
  : option (gset string) :=
  match o with
  | None => sets d !! k
  | Some X => Some (X ∪ smembers d k)
  end.

(** [f] unites constant sets into the set keys and writes the string keys
    as [written] allows, for one date. *)
Definition stable (date : string) (f : db -> db) : Prop :=
  exists (A : string -> option (gset string)) (B : string -> option write),
    forall d k,
      sets (f d) !! k = united (A k) d k /\
      strings (f d) !! k = written date (B k) (strings d !! k).

Lemma stable_id date : stable date (fun d => d).
Proof. by exists (fun _ => None), (fun _ => None). Qed.

Lemma stable_run date c : stable date (fun d => run d c).
Proof.
  destruct c as [name values|name value].
  - exists (fun k => if decide (name = k) then Some (list_to_set values) else None),
           (fun _ => None).
    intros d k. simpl. split; [|done].
    destruct (decide (name = k)) as [->|Hne]; simpl.
    + by rewrite lookup_insert_eq.
    + by rewrite lookup_insert_ne.
  - exists (fun _ => None),
           (fun k => if decide (name = k) then Some (Constant value) else None).
    intros d k. simpl. split; [done|].
    destruct (decide (name = k)) as [->|Hne]; simpl.
    + by rewrite lookup_insert_eq.
    + by rewrite lookup_insert_ne.
Qed.

Lemma stable_advance date name :
  stable date (fun d => run d (SET name (advance (strings d !! name) date))).
Proof.
  exists (fun _ => None), (fun k => if decide (name = k) then Some Advance else None).
  intros d k. simpl. split; [done|].
  destruct (decide (name = k)) as [->|Hne]; simpl.
  - by rewrite lookup_insert_eq.
  - by rewrite lookup_insert_ne.
Qed.

Lemma stable_compose date f g :
  stable date f -> stable date g -> stable date (fun d => g (f d)).
Proof.
  intros (A1 & B1 & Hf) (A2 & B2 & Hg).
  exists (fun k => match A2 k, A1 k with
                   | Some X2, Some X1 => Some (X2 ∪ X1)
                   | Some X2, None => Some X2
                   | None, a => a
                   end),
         (fun k => match B2 k, B1 k with
                   | None, b => b
                   | Some (Constant v), _ => Some (Constant v)
                   | Some Advance, Some (Constant v) =>
                       Some (Constant (advance (Some v) date))
                   | Some Advance, _ => Some Advance
                   end).
  intros d k. destruct (Hg (f d) k) as [-> ->].
  pose proof (Hf d k) as [Hs Ht]. split.
  - unfold united, smembers. rewrite Hs.
    destruct (A2 k), (A1 k); simpl; try done.
    f_equal. unfold smembers. set_solver.
  - rewrite Ht. destruct (B2 k) as [[]|], (B1 k) as [[]|]; simpl; try done.
    by rewrite advance_idem.
Qed.

Lemma stable_foldl_run date queue : stable date (fun d => foldl run d queue).
Proof.
  induction queue as [|c rest IH] using rev_ind; [apply stable_id|].
  eapply (stable_compose date _ (fun d => run d c)) in IH; [|apply stable_run].
  destruct IH as (A & B & HAB). exists A, B. intros d k.
  rewrite foldl_app. apply HAB.
Qed.

Lemma stable_idem date f : stable date f -> forall d, f (f d) = f d.
Proof.
  intros (A & B & Hf) d. apply db_eq; apply map_eq; intros k.
  - destruct (Hf (f d) k) as [-> _]. destruct (Hf d k) as [Hs _].
    unfold united, smembers. rewrite Hs. destruct (A k); simpl; [|done].
    f_equal. unfold smembers. set_solver.
  - destruct (Hf (f d) k) as [_ ->]. destruct (Hf d k) as [_ ->].
    destruct (B k) as [[]|]; simpl; try done. by rewrite advance_idem.
Qed.

End Stable.

(** ** Steps of the loader that do the same to every database *)

Section Uniform.

Import Redis RedisFacts.
Context `{Library}.
Variable self : RipeLoader.

(** [m] returns or raises the same in every world, does to the database
    something that can be repeated, and leaves the cache alone. *)
Definition uniform (date : string) {A} (m : io A) : Prop :=
  exists (r : result A) (f : db -> db),
    stable date f /\
    forall w, (m w).1 = r /\
              storagedb (m w).2 = f (storagedb w) /\
              expected_interval_first (m w).2 = expected_interval_first w.

Lemma uniform_lift date {A} (r : result A) : uniform date (lift r).
Proof. exists r, (fun d => d). split; [apply stable_id|done]. Qed.

Lemma uniform_ret date {A} (a : A) : uniform date (mret a).
Proof. exists (Ok a), (fun d => d). split; [apply stable_id|done]. Qed.

Lemma uniform_logger date l msg : uniform date (logger l msg).
Proof. exists (Ok tt), (fun d => d). split; [apply stable_id|done]. Qed.

Lemma uniform_pipeline_execute date queue :
  uniform date (pipeline_execute queue).
Proof.
  unfold pipeline_execute, execute.
  destruct (forallb well_formed queue).
  - exists (Ok tt), (fun d => foldl run d queue).
    split; [apply stable_foldl_run|done].
  - exists (Raise ResponseError), (fun d => d). split; [apply stable_id|done].
Qed.

Lemma update_last_db af date w :
  update_last self af date w =
  (Ok tt,
   with_db w (run (storagedb w)
                (SET (last_key self af)
                     (advance (strings (storagedb w) !! last_key self af) date)))).
Proof.
  unfold update_last, advance, mbind, io_bind, db_get, db_set, mret, io_ret,
    get. simpl.
  destruct (negb _ || _) eqn:Hc; simpl; [done|].
  destruct (strings (storagedb w) !! last_key self af) as [c|] eqn:Hl;
    [|done]. simpl.
  f_equal. destruct w as [d ? ?]. unfold with_db. simpl in *. f_equal.
  apply db_eq; simpl; [done|]. by rewrite insert_id.
Qed.

Lemma uniform_update_last date af : uniform date (update_last self af date).
Proof.
  exists (Ok tt),
    (fun d => run d (SET (last_key self af)
                       (advance (strings d !! last_key self af) date))).
  split; [apply stable_advance|].
  intros w. by rewrite update_last_db.
Qed.

Lemma uniform_bind date {A B} (m : io A) (k : A -> io B) :
  uniform date m -> (forall a, uniform date (k a)) -> uniform date (m ≫= k).
Proof.
  intros (r & f & Hf & Hm) Hk. destruct r as [a|e].
  - destruct (Hk a) as (r' & g & Hg & Hka).
    exists r', (fun d => g (f d)). split; [by apply stable_compose|].
    intros w. unfold mbind, io_bind. destruct (Hm w) as (Hr & Hd & Hc).
    destruct (m w) as [[a'|e'] w']; simpl in *; simplify_eq.
    destruct (Hka w') as (-> & -> & ->). by rewrite Hd, Hc.
  - exists (Raise e), f. split; [done|].
    intros w. unfold mbind, io_bind. destruct (Hm w) as (Hr & Hd & Hc).
    by destruct (m w) as [[a'|e'] w']; simpl in *; simplify_eq.
Qed.

Lemma uniform_again date {A} (m : io A) w :
  uniform date m ->
  (m (m w).2).1 = (m w).1 /\ storagedb (m (m w).2).2 = storagedb (m w).2.
Proof.
  intros (r & f & Hf & Hm).
  destruct (Hm w) as (Hr & Hd & _), (Hm (m w).2) as (Hr' & Hd' & _).
  split; [congruence|]. rewrite Hd', Hd. by eapply stable_idem.
Qed.

Lemma uniform_load_family date item : uniform date (load_family self date item).
Proof.
  destruct item as [af entries]. unfold load_family.
  apply uniform_bind; [apply uniform_lift|]. intros to_import.
  apply uniform_bind; [apply uniform_logger|]. intros _.
  apply uniform_bind; [apply uniform_pipeline_execute|]. intros _.
  apply uniform_update_last.
Qed.

Lemma uniform_load_families date its :
  uniform date (load_families self date its).
Proof.
  induction its as [|it rest IH]; simpl; [apply uniform_ret|].
  apply uniform_bind; [apply uniform_load_family|done].
Qed.

Lemma uniform_load_file c : uniform (date c) (load_file self c).
Proof.
  unfold load_file.
  apply uniform_bind; [apply uniform_logger|]. intros _.
  apply uniform_bind; [apply uniform_lift|]. intros routes.
  apply uniform_bind; [apply uniform_logger|]. intros _.
  apply uniform_bind; [apply uniform_load_families|]. intros _.
  apply uniform_bind; [apply uniform_logger|]. intros _.
  apply uniform_logger.
Qed.

Lemma already_loaded_spec date w :
  already_loaded self date w =
  (Ok (sismember (storagedb w) (dates_key self v4) date
       && sismember (storagedb w) (dates_key self v6) date), w).
Proof.
  unfold already_loaded, mbind, io_bind, db_sismember, mret, io_ret.
  by destruct (sismember _ _ _).
Qed.

Lemma load_candidate_cases c w :
  load_candidate self c w =
  if too_old w c then (Ok tt, w)
  else if sismember (storagedb w) (dates_key self v4) (date c)
          && sismember (storagedb w) (dates_key self v6) (date c)
       then logger DEBUG ("Already loaded " +:+ path c) w
       else load_file self c w.
Proof.
  unfold load_candidate, too_old, cache_hget_first.
  unfold mbind at 1. unfold io_bind at 1.
  destruct (_ && _); [done|].
  unfold mbind at 1. unfold io_bind at 1.
  rewrite already_loaded_spec. by destruct (_ && _).
Qed.

Lemma load_candidate_again c w :
  storagedb (load_candidate self c (load_candidate self c w).2).2
  = storagedb (load_candidate self c w).2.
Proof.
  rewrite (load_candidate_cases c (load_candidate self c w).2).
  rewrite (load_candidate_cases c w).
  fold (loaded_in self (storagedb w) (date c)).
  destruct (too_old w c) eqn:Hold.
  { simpl. by rewrite Hold. }
  destruct (loaded_in self (storagedb w) (date c)) eqn:Hloaded.
  { unfold too_old in *. simpl. rewrite Hold.
    fold (loaded_in self (storagedb w) (date c)). by rewrite Hloaded. }
  destruct (too_old (load_file self c w).2 c); [done|].
  fold (loaded_in self (storagedb (load_file self c w).2) (date c)).
  destruct (loaded_in self (storagedb (load_file self c w).2) (date c)); [done|].
  apply uniform_again with (date := date c), uniform_load_file.
Qed.

End Uniform.

(** ** One family committed *)

Section Commit.

Import Redis RedisFacts.
Context `{Library}.
Variable self : RipeLoader.

Local Arguments String.append : simpl nomatch.

Fixpoint has_bar (s : string) : bool :=
  match s with
  | EmptyString => false
  | String c s' => Ascii.eqb c "|" || has_bar s'
  end.

Lemma has_bar_app a b : has_bar (a +:+ String "|" b) = true.
Proof.
  induction a as [|c a IH]; simpl; [done|].
  rewrite IH. apply orb_true_r.
Qed.

Lemma key_tail_inj af x y :
  key_prefix self +:+ "|" +:+ family_name af +:+ x
  = key_prefix self +:+ "|" +:+ family_name af +:+ y -> x = y.
Proof.
  intros Heq. apply (inj (String.app _)) in Heq.
  destruct af; simpl in Heq; by simplify_eq.
Qed.

(** The keys that belong to one family and date. *)
Definition dated (af : address_family) (date : string) (name : string)
  : Prop :=
  exists tail, name = key_prefix self +:+ "|" +:+ family_name af +:+ "|"
                      +:+ date +:+ "|" +:+ tail.

Definition sadd_dated (af : address_family) (date : string) (c : command)
  : Prop :=
  match c with
  | SADD name _ => dated af date name
  | SET _ _ => True
  end.

Lemma queue_as_dated af date item :
  Forall (sadd_dated af date) (queue_as self af date item).
Proof.
  repeat apply Forall_cons_2; simpl; [|done|done]. by exists item.1.
Qed.

Lemma sadd_members_dated af date queue k :
  Forall (sadd_dated af date) queue ->
  ~ dated af date k ->
  sadd_members queue k = ∅.
Proof.
  intros Hq Hk. induction Hq as [|[name values|] rest Hc _ IH]; simpl;
    [done| |done].
  rewrite IH. destruct (decide (name = k)) as [->|]; [done|set_solver].
Qed.

Lemma dates_key_not_dated af af' date : ~ dated af date (dates_key self af').
Proof.
  unfold dates_key. intros [tail Heq].
  assert (af' = af) as -> by (by eapply family_in_key_inj).
  apply key_tail_inj in Heq. simpl in Heq. injection Heq as Heq.
  pose proof (has_bar_app date tail) as Hbar.
  simpl in Hbar. by rewrite <- Heq in Hbar.
Qed.

Lemma sadd_members_dates af af' date to_import :
  sadd_members (queue_family self af date to_import) (dates_key self af')
  = if decide (af = af') then {[date]} else ∅.
Proof.
  unfold queue_family. simpl.
  rewrite (sadd_members_dated af date).
  - rewrite (decide_False (P := asns_key self af date = _)).
    2: { intros Heq. apply (dates_key_not_dated af af' date).
         by exists "asns". }
    destruct (decide (af = af')) as [->|Hne].
    + rewrite decide_True by done. set_solver.
    + rewrite decide_False; [set_solver|].
      intros Heq. by apply dates_key_inj in Heq.
  - apply Forall_flat_map, Forall_forall. intros item _.
    apply queue_as_dated.
  - apply dates_key_not_dated.
Qed.

Lemma load_family_unfold date af entries w :
  load_family self date (af, entries) w =
  match import_entries ∅ entries with
  | Raise e => (Raise e, w)
  | Ok to_import =>
      let w1 := (logger DEBUG "All keys ready" w).2 in
      match execute (queue_family self af date to_import) (storagedb w) with
      | Raise e => (Raise e, w1)
      | Ok d => update_last self af date (with_db w1 d)
      end
  end.
Proof.
  unfold load_family, lift, pipeline_execute, mbind, io_bind.
  destruct (import_entries ∅ entries) as [to_import|e]; [|done].
  cbn [logger fst snd storagedb].
  by destruct (execute _ _).
Qed.

(** What [load_family] has done when it returns. *)
Lemma load_family_returns date af entries w w' :
  load_family self date (af, entries) w = (Ok tt, w') ->
  exists to_import,
    import_entries ∅ entries = Ok to_import /\
    forall k,
      smembers (storagedb w') k
      = sadd_members (queue_family self af date to_import) k
        ∪ smembers (storagedb w) k.
Proof.
  rewrite load_family_unfold.
  destruct (import_entries ∅ entries) as [to_import|e]; [|done].
  unfold execute. destruct (forallb well_formed _); [|done].
  cbv zeta. rewrite update_last_db. intros Hw. simplify_eq.
  exists to_import. split; [done|]. intros k.
  rewrite <- smembers_foldl_run. by unfold smembers.
Qed.

(** When [load_family] raises, the database is as it was. *)
Lemma load_family_raises date af entries w w' e :
  load_family self date (af, entries) w = (Raise e, w') ->
  storagedb w' = storagedb w.
Proof.
  rewrite load_family_unfold.
  destruct (import_entries ∅ entries) as [to_import|e']; [|by intros; simplify_eq].
  unfold execute. destruct (forallb well_formed _); [|by intros; simplify_eq].
  cbv zeta. by rewrite update_last_db.
Qed.

Lemma load_family_dates date af entries w w' af' :
  load_family self date (af, entries) w = (Ok tt, w') ->
  smembers (storagedb w') (dates_key self af')
  = (if decide (af = af') then {[date]} else ∅)
    ∪ smembers (storagedb w) (dates_key self af').
Proof.
  intros (to_import & _ & Hk)%load_family_returns.
  by rewrite Hk, sadd_members_dates.
Qed.

End Commit.

(** ** One file, one pass *)

Section Pass.

Import Redis RedisFacts.
Context `{Library}.
Variable self : RipeLoader.

Lemma load_file_unfold c w :
  load_file self c w =
  let w0 := (logger INFO ("Loading " +:+ path c) w).2 in
  match routeview (content c) with
  | Raise e => (Raise e, w0)
  | Ok routes =>
      let w1 := (logger DEBUG "Content loaded" w0).2 in
      match load_family self (date c) (v4, v4_routes routes) w1 with
      | (Raise e, w2) => (Raise e, w2)
      | (Ok _, w2) =>
          match load_family self (date c) (v6, v6_routes routes) w2 with
          | (Raise e, w3) => (Raise e, w3)
          | (Ok _, w3) =>
              logger DEBUG "Done."
                (logger INFO ("Done with " +:+ path c) w3).2
          end
      end
  end.
Proof.
  unfold load_file, lift, items, load_families, mbind, io_bind.
  cbn [logger fst snd].
  destruct (routeview (content c)) as [routes|e]; [|done].
  cbv zeta.
  destruct (load_family _ _ (v4, _) _) as [[[]|e] w2]; [|done].
  by destruct (load_family _ _ (v6, _) _) as [[[]|e] w3].
Qed.

Lemma load_file_raises_dates c w w' e :
  load_file self c w = (Raise e, w') ->
  dates_of self w' v6 = dates_of self w v6 /\ dates_of self w v4 ⊆ dates_of self w' v4.
Proof.
  rewrite load_file_unfold. cbv zeta.
  destruct (routeview (content c)) as [routes|e0].
  2: { intros; by simplify_eq. }
  destruct (load_family _ _ (v4, _) _) as [[[]|e1] w2] eqn:H4.
  2: { intros; simplify_eq. apply load_family_raises in H4.
       unfold dates_of. by rewrite H4. }
  destruct (load_family _ _ (v6, _) _) as [[[]|e2] w3] eqn:H6; [done|].
  intros; simplify_eq. apply load_family_raises in H6.
  pose proof (load_family_dates _ _ _ _ _ _ v6 H4) as Hv6.
  pose proof (load_family_dates _ _ _ _ _ _ v4 H4) as Hv4.
  unfold dates_of. rewrite H6, Hv6, Hv4. simpl. split; set_solver.
Qed.

Lemma load_file_v4_first c w : v4_first self w -> v4_first self (load_file self c w).2.
Proof.
  unfold v4_first. intros Hinv.
  destruct (load_file self c w) as [[[]|e] w'] eqn:Hload.
  2: { apply load_file_raises_dates in Hload as [Hv6 Hv4]. simpl.
       rewrite Hv6. set_solver. }
  revert Hload. rewrite load_file_unfold. cbv zeta.
  destruct (routeview (content c)) as [routes|e0]; [|done].
  destruct (load_family _ _ (v4, _) _) as [[[]|e1] w2] eqn:H4; [|done].
  destruct (load_family _ _ (v6, _) _) as [[[]|e2] w3] eqn:H6; [|done].
  unfold logger. intros Hload. simplify_eq.
  pose proof (load_family_dates _ _ _ _ _ _ v6 H4) as H46.
  pose proof (load_family_dates _ _ _ _ _ _ v4 H4) as H44.
  pose proof (load_family_dates _ _ _ _ _ _ v6 H6) as H66.
  pose proof (load_family_dates _ _ _ _ _ _ v4 H6) as H64.
  unfold dates_of in *. cbn [storagedb snd] in *.
  rewrite H66, H64, H46, H44. simpl. set_solver.
Qed.

Lemma load_candidate_v4_first c w :
  v4_first self w -> v4_first self (load_candidate self c w).2.
Proof.
  intros Hinv. rewrite load_candidate_cases.
  destruct (too_old w c); [done|].
  destruct (_ && _); [done|]. by apply load_file_v4_first.
Qed.

Lemma load_all_v4_first files w :
  v4_first self w -> v4_first self (load_all self files w).2.
Proof.
  revert w. induction files as [|c rest IH]; intros w Hinv; [done|].
  simpl. unfold mbind, io_bind.
  pose proof (load_candidate_v4_first c w Hinv) as Hc.
  destruct (load_candidate self c w) as [[[]|e] w']; simpl in *; [|done].
  by apply IH.
Qed.


(** A step that only adds records to the log. *)
Definition logs_on {A} (m : io A) : Prop :=
  forall w, exists l, logged (m w).2 = (logged w ++ l)%list.

Lemma logs_on_bind {A B} (m : io A) (k : A -> io B) :
  logs_on m -> (forall a, logs_on (k a)) -> logs_on (m ≫= k).
Proof.
  intros Hm Hk w. unfold mbind, io_bind. destruct (Hm w) as [l Hl].
  destruct (m w) as [[a|e] w']; simpl in *.
  - destruct (Hk a w') as [l' Hl']. exists (l ++ l')%list.
    by rewrite Hl', Hl, (assoc_L (++)).
  - by exists l.
Qed.

Lemma logs_on_logger l msg : logs_on (logger l msg).
Proof. intros w. by exists [(l, msg)]. Qed.

Lemma logs_on_quiet {A} (m : io A) :
  (forall w, logged (m w).2 = logged w) -> logs_on m.
Proof. intros Hm w. exists []. by rewrite Hm, app_nil_r. Qed.

Lemma logs_on_load_file_rest c routes :
  logs_on (_ ← logger DEBUG "Content loaded";
           _ ← load_families self (date c) (items routes);
           _ ← logger INFO ("Done with " +:+ path c);
           logger DEBUG "Done.").
Proof.
  apply logs_on_bind; [apply logs_on_logger|]. intros _.
  apply logs_on_bind; [|intros _; apply logs_on_bind;
                         [apply logs_on_logger|intros _; apply logs_on_logger]].
  generalize (items routes). intros its.
  induction its as [|[af entries] rest IH]; simpl.
  { by apply logs_on_quiet. }
  apply logs_on_bind; [|done]. unfold load_family.
  apply logs_on_bind; [by apply logs_on_quiet|]. intros to_import.
  apply logs_on_bind; [apply logs_on_logger|]. intros _.
  apply logs_on_bind.
  - apply logs_on_quiet. intros w. unfold pipeline_execute.
    by destruct (execute _ _).
  - intros _. apply logs_on_quiet. intros w. by rewrite update_last_db.
Qed.

(** [load_file] first tells the logger that it loads the file. *)
Lemma load_file_logs_loading c w :
  exists l, logged (load_file self c w).2
            = (logged w ++ (INFO, "Loading " +:+ path c) :: l)%list.
Proof.
  unfold load_file. unfold mbind at 1. unfold io_bind at 1.
  cbn [logger].
  set (w0 := {| storagedb := storagedb w;
                expected_interval_first := expected_interval_first w;
                logged := logged w ++ [(INFO, "Loading " +:+ path c)] |}).
  unfold mbind at 1. unfold io_bind at 1. unfold lift at 1.
  destruct (routeview (content c)) as [routes|e].
  - destruct (logs_on_load_file_rest c routes w0) as [l Hl].
    exists l. rewrite Hl. simpl. by rewrite <- (assoc_L (++)).
  - exists []. done.
Qed.

End Pass.

(** ** The aggregate of an AS *)

Lemma Zsum_perm l l' : l ≡ₚ l' -> Zsum l = Zsum l'.
Proof. induction 1; simpl in *; lia. Qed.

Lemma shiftr_all_ones w len :
  0 <= len <= w -> Z.shiftr (2 ^ w - 1) len = 2 ^ (w - len) - 1.
Proof.
  intros Hlen. rewrite Z.shiftr_div_pow2 by lia.
  symmetry. apply (Z.div_unique_pos _ _ _ (2 ^ len - 1)).
  - assert (0 < 2 ^ len) by (apply Z.pow_pos_nonneg; lia). lia.
  - replace w with ((w - len) + len) at 1 by lia.
    rewrite Z.pow_add_r by lia. lia.
Qed.

Lemma hostmask_strict n :
  0 <= prefixlen n <= max_prefixlen n ->
  hostmask n = 2 ^ (max_prefixlen n - prefixlen n) - 1.
Proof.
  intros Hlen. unfold hostmask, netmask, ALL_ONES.
  rewrite (Z.lxor_comm (2 ^ max_prefixlen n - 1)), Z.lxor_assoc.
  rewrite Z.lxor_nilpotent, Z.lxor_0_r. by apply shiftr_all_ones.
Qed.

(** For a network as the library builds it, [num_addresses] is the power of
    two of the host part. *)
Lemma num_addresses_strict n : strict n -> num_addresses n = addresses n.
Proof.
  intros (Hlen & Haddr & Hbits).
  unfold num_addresses, broadcast_address, addresses.
  rewrite <- Z.lxor_lor, <- Z.add_nocarry_lxor by done.
  rewrite hostmask_strict by done. lia.
Qed.

Section Aggregate.

Context `{Library}.

Definition data_of (to_import : gmap string as_data) (asn : string) : as_data :=
  default new_as_data (to_import !! asn).

Lemma import_entries_data entries to_import to_import' asn :
  import_entries to_import entries = Ok to_import' ->
  prefixes (data_of to_import' asn)
    = list_to_set (str_network <$> networks_of asn entries)
      ∪ prefixes (data_of to_import asn) /\
  ipcount (data_of to_import' asn)
    = ipcount (data_of to_import asn)
      + Zsum (num_addresses <$> networks_of asn entries) /\
  (is_Some (to_import' !! asn) <->
   is_Some (to_import !! asn) \/ networks_of asn entries <> []).
Proof.
  revert to_import. induction entries as [|[prefix a] rest IH];
    intros to_import Himport; simpl in *.
  { simplify_eq. split; [set_solver|]. split; [lia|]. naive_solver. }
  destruct (ip_network prefix) as [n|e] eqn:Hn; [|done]. simpl in Himport.
  destruct (IH _ Himport) as (Hp & Hc & Hs). clear IH.
  unfold data_of in *. destruct (decide (a = asn)) as [->|Hne].
  - rewrite lookup_insert_eq in Hp, Hc, Hs. simpl in Hp, Hc, Hs.
    rewrite Hp, Hc, !fmap_cons, list_to_set_cons.
    change (Zsum (?x :: ?l)) with (x + Zsum l).
    split; [set_solver|]. split; [lia|].
    rewrite Hs. split; [intros _; by right|intros _; by left].
  - rewrite lookup_insert_ne in Hp, Hc, Hs by done.
    by rewrite Hp, Hc, Hs.
Qed.

Lemma networks_of_strict asn entries :
  Forall strict (networks_of asn entries).
Proof.
  induction entries as [|[prefix a] rest IH]; simpl; [done|].
  destruct (ip_network prefix) as [n|e] eqn:Hn; [|done].
  destruct (decide (a = asn)); [|done].
  apply Forall_cons_2; [|done]. by eapply ip_network_strict.
Qed.

Lemma Zsum_num_addresses nets :
  Forall strict nets -> Zsum (num_addresses <$> nets) = Zsum (addresses <$> nets).
Proof.
  induction 1 as [|n rest Hn _ IH]; [done|].
  rewrite !fmap_cons. change (Zsum (?x :: ?l)) with (x + Zsum l).
  by rewrite IH, num_addresses_strict.
Qed.

Lemma addresses_of_text_distinct nets :
  NoDup (str_network <$> nets) ->
  addresses_of_text nets <$> (str_network <$> nets) = addresses <$> nets.
Proof.
  induction nets as [|n rest IH]; [done|].
  rewrite !fmap_cons. intros [Hn Hrest]%NoDup_cons. f_equal.
  - unfold addresses_of_text. simpl. by rewrite bool_decide_eq_true_2.
  - rewrite <- (IH Hrest). apply list_fmap_ext.
    intros i text Htext. unfold addresses_of_text. simpl.
    rewrite bool_decide_eq_false_2; [done|].
    intros Heq. subst text. apply Hn. by eapply list_elem_of_lookup_2.
Qed.

(** The aggregate of an AS that has entries. *)
Lemma import_entries_aggregate entries to_import asn :
  import_entries ∅ entries = Ok to_import ->
  networks_of asn entries <> [] ->
  exists data,
    to_import !! asn = Some data /\
    prefixes data = list_to_set (str_network <$> networks_of asn entries) /\
    ipcount data = Zsum (addresses <$> networks_of asn entries).
Proof.
  intros Himport Hnets.
  destruct (import_entries_data entries ∅ to_import asn Himport)
    as (Hp & Hc & Hs).
  destruct (proj2 Hs (or_intror Hnets)) as [data Hdata].
  exists data. split; [done|].
  unfold data_of in Hp, Hc. rewrite Hdata, lookup_empty in Hp, Hc.
  simpl in Hp, Hc. split.
  - rewrite Hp. set_solver.
  - rewrite Hc, Zsum_num_addresses by apply networks_of_strict. done.
Qed.

End Aggregate.

(** * The claims *)

(** C1, as the code has it. The aggregate of an AS holds the set of the
    printed networks of its entries, and its [ipcount] is the sum of
    [2 ^ (width - length)] over the entries of the AS, each occurrence
    counted. When no prefix occurs twice for the AS, this is the sum over
    the distinct prefixes of the set. *)
Theorem ipcount_counts_every_occurrence :
  forall (lib : Library) entries to_import asn data,
    import_entries ∅ entries = Ok to_import ->
    to_import !! asn = Some data ->
    let nets := networks_of asn entries in
    prefixes data = list_to_set (str_network <$> nets) /\
    ipcount data = Zsum (addresses <$> nets) /\
    (NoDup (str_network <$> nets) ->
     ipcount data = sum_over_distinct_prefixes nets (prefixes data)).
Proof.
  intros lib entries to_import asn data Himport Hdata nets.
  destruct (import_entries_data entries ∅ to_import asn Himport)
    as (Hp & Hc & _).
  unfold data_of in Hp, Hc. rewrite Hdata, lookup_empty in Hp, Hc.
  simpl in Hp, Hc.
  assert (Hp' : prefixes data = list_to_set (str_network <$> nets)).
  { rewrite Hp. set_solver. }
  assert (Hc' : ipcount data = Zsum (addresses <$> nets)).
  { rewrite Hc, Zsum_num_addresses by apply networks_of_strict. done. }
  split; [done|]. split; [done|].
  intros Hdistinct. unfold sum_over_distinct_prefixes.
  rewrite Hc', Hp', <- (addresses_of_text_distinct nets Hdistinct).
  apply Zsum_perm, fmap_Permutation. symmetry.
  by apply elements_list_to_set.
Qed.

Lemma ipcount_counts_every_occurrence_witness :
  exists to_import data,
    import_entries ∅ two_prefixes = Ok to_import /\
    to_import !! "65000" = Some data /\
    elements (prefixes data) ≡ₚ ["10.0.0.0/24"; "10.0.1.0/24"] /\
    ipcount data = 512 /\
    sum_over_distinct_prefixes (networks_of "65000" two_prefixes)
      (prefixes data) = 512.
Proof.
  destruct (import_entries ∅ two_prefixes) as [m|e] eqn:Hm;
    [|by vm_compute in Hm].
  destruct (import_entries_aggregate two_prefixes m "65000" Hm)
    as (d & Hd & _); [by vm_compute|].
  exists m, d.
  destruct (ipcount_counts_every_occurrence plain_text two_prefixes m
              "65000" d Hm Hd) as (Hp & Hc & Hn).
  assert (Hdistinct : NoDup (str_network <$> networks_of "65000" two_prefixes)).
  { apply (bool_decide_unpack _). by vm_compute. }
  split; [done|]. split; [done|]. split; [|split].
  - rewrite Hp. by apply elements_list_to_set.
  - exact Hc.
  - rewrite <- (Hn Hdistinct). exact Hc.
Defined.

(** C1, as stated, fails: with [10.0.0.0/24] a second time for AS 65000,
    the set holds two prefixes, whose sum is 512, and [ipcount] is 768. *)
Lemma a_repeated_prefix_is_counted_again :
  exists to_import data,
    import_entries ∅ repeated_prefix = Ok to_import /\
    to_import !! "65000" = Some data /\
    elements (prefixes data) ≡ₚ ["10.0.0.0/24"; "10.0.1.0/24"] /\
    sum_over_distinct_prefixes (networks_of "65000" repeated_prefix)
      (prefixes data) = 512 /\
    ipcount data = 768 /\
    ipcount data <> sum_over_distinct_prefixes
                      (networks_of "65000" repeated_prefix) (prefixes data).
Proof.
  destruct (import_entries ∅ repeated_prefix) as [m|e] eqn:Hm;
    [|by vm_compute in Hm].
  destruct (import_entries_aggregate repeated_prefix m "65000" Hm)
    as (d & Hd & Hp & Hc); [by vm_compute|].
  exists m, d.
  assert (Hset : elements (prefixes d) ≡ₚ ["10.0.0.0/24"; "10.0.1.0/24"]).
  { rewrite Hp.
    replace (list_to_set (str_network <$> networks_of "65000" repeated_prefix))
      with (list_to_set (C := gset string) ["10.0.0.0/24"; "10.0.1.0/24"]).
    - apply elements_list_to_set, (bool_decide_unpack _). by vm_compute.
    - vm_compute networks_of. simpl. set_solver. }
  assert (Hsum : sum_over_distinct_prefixes
                   (networks_of "65000" repeated_prefix) (prefixes d) = 512).
  { unfold sum_over_distinct_prefixes.
    rewrite (Zsum_perm _ _ (fmap_Permutation _ _ _ Hset)). by vm_compute. }
  assert (Hcount : ipcount d = 768) by (rewrite Hc; by vm_compute).
  repeat split; try done. rewrite Hsum, Hcount. discriminate.
Qed.

(** C2, as the code has it. The inner text of [{64513,64514}] holds a comma,
    which is no digit: the token does not qualify and the scan goes on to
    [64512]. A token that is not all digits qualifies when what is left of
    it without its first and last character is all digits (as for
    [{64513}]), and that inner text is then the origin. *)
Theorem as_set_token_resolution :
  (forall cur,
     cleanup_as_sets (rev (split "64511 64512 {64513,64514}")) cur
     = Some "64512") /\
  (forall cur path asn,
     last (split path) = Some asn ->
     isnumeric asn = false ->
     isnumeric (slice_1_m1 asn) = true ->
     cleanup_as_sets (rev (split path)) cur = Some (slice_1_m1 asn)).
Proof.
  split; [reflexivity|].
  intros cur path asn Hlast Hn Hs.
  destruct (split path) as [|t ts] using rev_ind; [discriminate|].
  rewrite last_snoc in Hlast. simplify_eq.
  rewrite rev_unit. simpl. by rewrite Hn, Hs.
Qed.

Lemma as_set_token_resolution_witness :
  cleanup_as_sets (rev (split "64511 64512 {64513}")) None = Some "64513".
Proof.
  exact (proj2 as_set_token_resolution None "64511 64512 {64513}" "{64513}"
           eq_refl eq_refl eq_refl).
Defined.

(** C2, as stated, fails: for the AS path [64511 64512 {64513,64514}] the
    origin recorded is [64512], not [64513,64514]. *)
Lemma as_set_with_two_members_is_passed_over :
  isnumeric (slice_1_m1 "{64513,64514}") = false /\
  routeview (Decoded [table_dump_v2 "10.0.0.0" 24 AF_INET
                        ["64511 64512 {64513,64514}"]])
  = Ok {| v4_routes := [("10.0.0.0/24", "64512")]; v6_routes := [] |} /\
  cleanup_as_sets (rev (split "64511 64512 {64513,64514}")) None
  <> Some "64513,64514".
Proof. repeat split. discriminate. Qed.

(** C3. When no token of the last path qualifies, the entry is not left
    out: [best_as] keeps the value found for an earlier entry and the prefix
    is recorded under that AS; when there is no earlier value, reading
    [best_as] raises and the whole file is lost. *)
Theorem unresolved_origin_is_not_skipped :
  routeview (Decoded [table_dump_v2 "10.0.0.0" 24 AF_INET ["64496 64500"];
                      table_dump_v2 "10.0.1.0" 24 AF_INET ["{bogus}"]])
  = Ok {| v4_routes := [("10.0.0.0/24", "64500"); ("10.0.1.0/24", "64500")];
          v6_routes := [] |} /\
  routeview (Decoded [table_dump_v2 "10.0.1.0" 24 AF_INET ["{bogus}"];
                      table_dump_v2 "10.0.0.0" 24 AF_INET ["64496 64500"]])
  = Raise UnboundLocalError.
Proof. split; reflexivity. Qed.

(** C4. Loading a file a second time, for the same date, leaves the storage
    database as the first load left it: each [SADD] unites the same members
    into the set they are already in and each [SET] writes the value that is
    there. This holds whether the file is loaded through [load_all], which
    may pass over it as already loaded, or by running the load twice, and
    also when the load raises part of the way. *)
Theorem reloading_a_file_changes_nothing :
  forall (lib : Library) self c w af asn,
    let once := (load_file self c w).2 in
    let twice := (load_file self c once).2 in
    storagedb twice = storagedb once /\
    (load_file self c once).1 = (load_file self c w).1 /\
    Redis.smembers (storagedb twice) (prefixes_key self af (date c) asn)
      = Redis.smembers (storagedb once) (prefixes_key self af (date c) asn) /\
    Redis.get (storagedb twice) (ipcount_key self af (date c) asn)
      = Redis.get (storagedb once) (ipcount_key self af (date c) asn) /\
    storagedb (load_all self [c] (load_all self [c] w).2).2
      = storagedb (load_all self [c] w).2.
Proof.
  intros lib self c w af asn once twice.
  destruct (uniform_again (date c) (load_file self c) w
              (uniform_load_file self c)) as [Hr Hd].
  subst once twice. rewrite Hd. repeat split; try done.
  assert (Hone : forall w', (load_all self [c] w').2 = (load_candidate self c w').2).
  { intros w'. simpl. unfold mbind, io_bind.
    by destruct (load_candidate self c w') as [[[]|e] w'']. }
  rewrite !Hone. apply load_candidate_again.
Qed.

(** C5. [already_loaded] changes nothing and answers true exactly when the
    date is in the set of loaded dates of v4 and in that of v6. When one
    family has been committed for a date that the other family does not
    hold, the date is in the set of the committed family and
    [already_loaded] answers false. *)
Theorem date_loaded_iff_both_families_hold_it :
  forall (lib : Library) self date w,
    (exists b, already_loaded self date w = (Ok b, w) /\
       (b = true <->
        date ∈ Redis.smembers (storagedb w) (dates_key self v4) /\
        date ∈ Redis.smembers (storagedb w) (dates_key self v6))) /\
    (forall af other entries w',
       other <> af ->
       date ∉ Redis.smembers (storagedb w) (dates_key self other) ->
       load_family self date (af, entries) w = (Ok tt, w') ->
       date ∈ Redis.smembers (storagedb w') (dates_key self af) /\
       already_loaded self date w' = (Ok false, w')).
Proof.
  intros lib self date w. split.
  - eexists. split; [apply already_loaded_spec|].
    unfold Redis.sismember. rewrite andb_true_iff, !bool_decide_eq_true. done.
  - intros af other entries w' Hne Hother Hload.
    pose proof (load_family_dates self date af entries w w' af Hload) as Haf.
    pose proof (load_family_dates self date af entries w w' other Hload) as Hot.
    rewrite decide_True in Haf by done. rewrite decide_False in Hot by done.
    split; [set_solver|].
    rewrite already_loaded_spec. f_equal. f_equal.
    apply andb_false_iff. unfold Redis.sismember.
    destruct other, af; try done.
    + left. apply bool_decide_eq_false. set_solver.
    + right. apply bool_decide_eq_false. set_solver.
Qed.

Lemma date_loaded_iff_both_families_hold_it_witness :
  let w' := (load_family rrc00 "2024-06-01T00:00:00"
               (v4, [("10.0.0.0/24", "65000")]) fresh_world).2 in
  "2024-06-01T00:00:00"
    ∈ Redis.smembers (storagedb w') (dates_key rrc00 v4) /\
  already_loaded rrc00 "2024-06-01T00:00:00" w' = (Ok false, w').
Proof.
  apply (proj2 (date_loaded_iff_both_families_hold_it
                  plain_text rrc00 "2024-06-01T00:00:00" fresh_world)
           v4 v6 [("10.0.0.0/24", "65000")]).
  - discriminate.
  - vm_compute. set_solver.
  - vm_compute. reflexivity.
Defined.

(** C6. [update_last] returns, and leaves as the pointer of the family the
    committed date when there was no pointer, and otherwise the later of the
    pointer and the date in the order of strings; so over any sequence of
    calls, for any families and dates, a pointer that exists never moves
    back. *)
Theorem last_date_pointer_never_moves_back :
  forall self af date w,
    (update_last self af date w).1 = Ok tt /\
    last_of self af (update_last self af date w).2
      = Some (later_of (last_of self af w) date) /\
    (last_of self af w = None -> later_of (last_of self af w) date = date) /\
    (forall c, last_of self af w = Some c ->
       String.leb c (later_of (Some c) date) = true /\
       String.leb date (later_of (Some c) date) = true /\
       (later_of (Some c) date = c \/ later_of (Some c) date = date)) /\
    (forall calls c, last_of self af w = Some c ->
       exists c', last_of self af (update_last_calls self calls w) = Some c' /\
                  String.leb c c' = true).
Proof.
  intros self af date w.
  destruct (update_last_last_of self af date w) as [Hr Hl].
  repeat split; try done.
  - by intros ->.
  - apply later_of_bounds.
  - apply later_of_bounds.
  - apply later_of_bounds.
  - intros calls c Hc. by apply update_last_calls_monotone.
Qed.

Lemma last_date_pointer_never_moves_back_witness :
  let w1 := (update_last rrc00 v4 "2024-06-02T00:00:00" fresh_world).2 in
  exists c',
    last_of rrc00 v4
      (update_last_calls rrc00
         [(v4, "2024-06-01T00:00:00"); (v6, "2024-06-03T00:00:00")] w1)
    = Some c' /\
    String.leb "2024-06-02T00:00:00" c' = true.
Proof.
  intros w1.
  apply (proj2 (proj2 (proj2 (proj2
           (last_date_pointer_never_moves_back rrc00 v4 "2024-06-02T00:00:00"
              w1))))).
  vm_compute. reflexivity.
Defined.




(** C8. With a bound [first] in the cache, a file whose date is strictly
    before the bound is passed over: the step returns with the world as it
    was (nothing stored, nothing logged), whatever the file holds, so the
    dump is not decoded. A file whose date is the bound or later is not
    passed over by this test: it goes on to the [already_loaded] test and,
    if the date is not loaded, to [routeview], which the logger is told
    first. *)
Theorem files_older_than_the_bound_are_skipped :
  forall (lib : Library) self c w bound,
    expected_interval_first w = Some bound ->
    (String.ltb (date c) bound = true ->
     forall content',
       load_candidate self
         {| path := path c; date := date c; content := content' |} w
       = (Ok tt, w)) /\
    (String.ltb (date c) bound = false ->
     load_candidate self c w
     = (if loaded_in self (storagedb w) (date c)
        then logger DEBUG ("Already loaded " +:+ path c) w
        else load_file self c w) /\
     (loaded_in self (storagedb w) (date c) = false ->
      exists l, logged (load_candidate self c w).2
                = (logged w ++ (INFO, "Loading " +:+ path c) :: l)%list)).
Proof.
  intros lib self c w bound Hbound. split.
  - intros Hlt content'. rewrite load_candidate_cases.
    unfold too_old, str_gt. rewrite Hbound. simpl.
    rewrite Hlt. by destruct bound; [destruct (date c)|].
  - intros Hge.
    assert (Hcases : load_candidate self c w
                     = if loaded_in self (storagedb w) (date c)
                       then logger DEBUG ("Already loaded " +:+ path c) w
                       else load_file self c w).
    { rewrite load_candidate_cases. unfold too_old, str_gt.
      rewrite Hbound. simpl. rewrite Hge. by rewrite andb_false_r. }
    split; [done|]. intros Hnot. rewrite Hcases, Hnot.
    apply load_file_logs_loading.
Qed.

Lemma files_older_than_the_bound_are_skipped_witness :
  load_candidate rrc00
    {| path := "/data/ripe/rrc00/2024-05/bview.20240531.0000.gz";
       date := "2024-05-31T00:00:00";
       content := Decoded [table_dump_v2 "10.0.0.0" 24 AF_INET ["64500"]] |}
    bound_june
  = (Ok tt, bound_june).
Proof.
  apply (proj1 (files_older_than_the_bound_are_skipped plain_text rrc00
                  {| path := "/data/ripe/rrc00/2024-05/bview.20240531.0000.gz";
                     date := "2024-05-31T00:00:00";
                     content := Undecodable |}
                  bound_june "2024-06-01T00:00:00" eq_refl)).
  reflexivity.
Defined.

(** C9. An entry whose body is a [TableDumpV1] is passed over: the step
    returns without raising and leaves the locals ([routes] and [best_as])
    as they were, so the result of [routeview] is that of the dump with its
    [TableDumpV1] entries taken out. *)
Theorem table_dump_v1_entries_are_skipped :
  forall st pre post entries,
    routeview_entry st BodyV1 = Ok st /\
    routeview_entries st (pre ++ BodyV1 :: post) =
      routeview_entries st (pre ++ post) /\
    routeview (Decoded entries) =
      routeview (Decoded (List.filter is_table_dump_v2 entries)).
Proof.
  intros st pre post entries. split; [reflexivity|]. split.
  - rewrite !routeview_entries_app.
    destruct (routeview_entries st pre); reflexivity.
  - unfold routeview. by rewrite <- routeview_entries_only_v2.
Qed.

(** C10. [all_paths[-1]] is not guarded: at a [TableDumpV2] entry with no
    route entries the step raises [IndexError], whatever the locals, and so
    does the walk over a dump in which the entries before it went through. *)
Theorem empty_route_entries_raise_index_error :
  forall b st pre post st',
    routeEntries b = [] ->
    routeview_entries st pre = Ok st' ->
    routeview_entry st' (BodyV2 b) = Raise IndexError /\
    routeview_entries st (pre ++ BodyV2 b :: post) = Raise IndexError.
Proof.
  intros b st pre post st' Hb Hpre.
  assert (Hstep : forall s, routeview_entry s (BodyV2 b) = Raise IndexError).
  { intros s. unfold routeview_entry. by rewrite Hb. }
  split; [apply Hstep|].
  rewrite routeview_entries_app, Hpre. simpl. by rewrite Hstep.
Qed.

Lemma empty_route_entries_raise_index_error_witness :
  routeview_entries initial_locals
    ([table_dump_v2 "10.0.0.0" 24 AF_INET ["64500"]]
     ++ table_dump_v2 "10.0.1.0" 24 AF_INET []
     :: [table_dump_v2 "10.0.2.0" 24 AF_INET ["64501"]])
  = Raise IndexError.
Proof.
  eapply proj2, empty_route_entries_raise_index_error; reflexivity.
Defined.

(** * Further properties of [routeview] *)

Section RouteviewMore.

Lemma add_route_prefixes rs b r :
  (v4_routes (add_route rs b r)).*1
  = ((v4_routes rs).*1 ++ (if is_inet b then [r.1] else []))%list /\
  (v6_routes (add_route rs b r)).*1
  = ((v6_routes rs).*1 ++ (if is_inet b then [] else [r.1]))%list.
Proof.
  unfold add_route, is_inet. destruct (afi b =? AF_INET); simpl;
    rewrite ?fmap_app, ?app_nil_r; done.
Qed.

Lemma routeview_entry_returns st b st' :
  routeview_entry st (BodyV2 b) = Ok st' ->
  exists asn,
    best_as st' = Some asn /\
    loc_routes st' = add_route (loc_routes st) b (prefix_text b, asn).
Proof.
  unfold routeview_entry.
  destruct (last_path _) as [path|e]; [|done]. simpl.
  destruct (cleanup_as_sets (rev path) (best_as st)) as [asn|] eqn:Hscan;
    [|done].
  intros Hst. simplify_eq. by exists asn.
Qed.

Lemma routeview_entries_prefixes entries st st' :
  routeview_entries st entries = Ok st' ->
  (v4_routes (loc_routes st')).*1
  = ((v4_routes (loc_routes st)).*1
     ++ (prefix_text <$> List.filter is_inet (table_dumps_v2 entries)))%list /\
  (v6_routes (loc_routes st')).*1
  = ((v6_routes (loc_routes st)).*1
     ++ (prefix_text <$> List.filter (fun b => negb (is_inet b))
                           (table_dumps_v2 entries)))%list.
Proof.
  revert st. induction entries as [|[|b] rest IH]; intros st Hrun; simpl in Hrun.
  - simplify_eq. by rewrite !app_nil_r.
  - by apply IH.
  - destruct (routeview_entry st (BodyV2 b)) as [st1|e] eqn:Hstep; [|done].
    simpl in Hrun. destruct (IH _ Hrun) as [H4 H6].
    apply routeview_entry_returns in Hstep as (asn & _ & Hroutes).
    rewrite H4, H6, Hroutes.
    destruct (add_route_prefixes (loc_routes st) b (prefix_text b, asn))
      as [-> ->].
    change (table_dumps_v2 (BodyV2 b :: rest)) with (b :: table_dumps_v2 rest).
    simpl. destruct (is_inet b); simpl; by rewrite <- ?(assoc_L (++)).
Qed.

Lemma cleanup_as_sets_numeric tokens cur asn :
  cleanup_as_sets tokens cur = Some asn ->
  cur = Some asn \/ isnumeric asn = true.
Proof.
  induction tokens as [|t rest IH]; simpl; [by left|].
  destruct (isnumeric t) eqn:Ht; [intros; simplify_eq; by right|].
  destruct (isnumeric (slice_1_m1 t)) eqn:Hs; [intros; simplify_eq; by right|].
  done.
Qed.

(** What the walk keeps true of its locals: every origin recorded, and the
    binding of [best_as], is a string of digits. *)
Definition numeric_origins (st : locals) : Prop :=
  (forall asn, best_as st = Some asn -> isnumeric asn = true) /\
  Forall (fun r => isnumeric r.2 = true)
    (v4_routes (loc_routes st) ++ v6_routes (loc_routes st)).

Lemma routeview_entry_numeric st entry st' :
  numeric_origins st -> routeview_entry st entry = Ok st' -> numeric_origins st'.
Proof.
  intros [Hbest Hroutes]. unfold routeview_entry.
  destruct entry as [|b]; [intros; by simplify_eq|].
  destruct (last_path _) as [path|e]; [|done]. simpl.
  destruct (cleanup_as_sets (rev path) (best_as st)) as [asn|] eqn:Hscan;
    [|done].
  intros Hst. simplify_eq.
  assert (Hasn : isnumeric asn = true).
  { apply cleanup_as_sets_numeric in Hscan as [Hcur|Hnum]; auto. }
  split; simpl; [by intros; simplify_eq|].
  unfold add_route. destruct (afi b =? AF_INET); simpl.
  - rewrite <- (assoc_L (++)). apply Forall_app in Hroutes as [H4 H6].
    rewrite !Forall_app. repeat split; try done. by apply Forall_singleton.
  - rewrite (assoc_L (++)). apply Forall_app. split; [done|].
    by apply Forall_singleton.
Qed.

Lemma routeview_entries_numeric entries st st' :
  numeric_origins st -> routeview_entries st entries = Ok st' ->
  numeric_origins st'.
Proof.
  revert st. induction entries as [|e rest IH]; intros st Hst Hrun;
    simpl in Hrun; [by simplify_eq|].
  destruct (routeview_entry st e) as [st1|err] eqn:Hstep; [|done].
  simpl in Hrun. eapply IH; [|done]. by eapply routeview_entry_numeric.
Qed.




Lemma length_filter_both {A} (f : A -> bool) l :
  (length (List.filter f l) + length (List.filter (fun x => negb (f x)) l))%nat
  = length l.
Proof.
  induction l as [|x l IH]; [done|].
  cbn [List.filter]. destruct (f x); cbn [negb length]; lia.
Qed.

End RouteviewMore.

(** X1. When [routeview] returns, every [TableDumpV2] entry of the dump has
    given one route, in the order of the file: the prefixes under [v4] are
    those of the entries whose [afi] is [AF_INET], the prefixes under [v6]
    those of all the other entries, each printed as address, slash,
    length. *)
Theorem routes_follow_the_dump :
  forall entries r,
    routeview (Decoded entries) = Ok r ->
    (v4_routes r).*1
    = prefix_text <$> List.filter is_inet (table_dumps_v2 entries) /\
    (v6_routes r).*1
    = prefix_text <$> List.filter (fun b => negb (is_inet b))
                        (table_dumps_v2 entries) /\
    (length (v4_routes r) + length (v6_routes r))%nat
    = length (table_dumps_v2 entries).
Proof.
  intros entries r. unfold routeview.
  destruct (routeview_entries initial_locals entries) as [st|e] eqn:Hrun;
    [|done].
  simpl. intros Hr. simplify_eq.
  destruct (routeview_entries_prefixes _ _ _ Hrun) as [H4 H6]. simpl in H4, H6.
  split; [done|]. split; [done|].
  rewrite <- (length_fmap fst (v4_routes _)), <- (length_fmap fst (v6_routes _)).
  rewrite H4, H6, !length_fmap. apply length_filter_both.
Qed.

Lemma routes_follow_the_dump_witness :
  (v4_routes
     {| v4_routes := [("10.0.0.0/24", "65000")];
        v6_routes := [("2001:db8::/32", "65001")] |}).*1
  = prefix_text <$> List.filter is_inet (table_dumps_v2
      [BodyV1; table_dump_v2 "2001:db8::" 32 AF_INET6 ["64496 65001"];
       table_dump_v2 "10.0.0.0" 24 AF_INET ["64496 65000"]]).
Proof.
  apply (routes_follow_the_dump
           [BodyV1; table_dump_v2 "2001:db8::" 32 AF_INET6 ["64496 65001"];
            table_dump_v2 "10.0.0.0" 24 AF_INET ["64496 65000"]]).
  reflexivity.
Defined.

(** X2. Every origin that [routeview] returns is a non-empty string of
    decimal digits: a token is taken as it is only when it is numeric, and
    without its first and last character only when the rest is. *)
Theorem origins_are_digit_strings :
  forall bview_file r,
    routeview bview_file = Ok r ->
    Forall (fun route => isnumeric route.2 = true)
      (v4_routes r ++ v6_routes r).
Proof.
  intros [entries|] r; [|done]. unfold routeview.
  destruct (routeview_entries initial_locals entries) as [st|e] eqn:Hrun;
    [|done].
  simpl. intros Hr. simplify_eq.
  apply (routeview_entries_numeric entries initial_locals st); [|done].
  split; [done|]. simpl. constructor.
Qed.

Lemma origins_are_digit_strings_witness :
  Forall (fun route => isnumeric route.2 = true)
    (v4_routes {| v4_routes := [("10.0.0.0/24", "64513")];
                  v6_routes := [("2001:db8::/32", "65001")] |}
     ++ v6_routes {| v4_routes := [("10.0.0.0/24", "64513")];
                     v6_routes := [("2001:db8::/32", "65001")] |}).
Proof.
  apply (origins_are_digit_strings
           (Decoded [table_dump_v2 "10.0.0.0" 24 AF_INET ["64511 {64513}"];
                     table_dump_v2 "2001:db8::" 32 AF_INET6 ["64496 65001"]])).
  reflexivity.
Defined.



(** * Further properties of [update_last] *)

Section PointerMore.

Variable self : RipeLoader.

(** The pointer of a family after a sequence of calls, from the pointer
    before. *)
Fixpoint final_pointer (af : address_family) (cur : option string)
    (calls : list (address_family * string)) : option string :=
  match calls with
  | [] => cur
  | (af', date) :: rest =>
      final_pointer af
        (if decide (af' = af) then Some (later_of cur date) else cur) rest
  end.

Lemma update_last_calls_final af calls w :
  last_of self af (update_last_calls self calls w)
  = final_pointer af (last_of self af w) calls.
Proof.
  revert w. induction calls as [|[af' date] rest IH]; intros w; [done|].
  simpl. rewrite IH. destruct (decide (af' = af)) as [->|Hne].
  - by destruct (update_last_last_of self af date w) as [_ ->].
  - by rewrite update_last_other.
Qed.

Lemma later_of_greatest cur date :
  (cur = Some (later_of cur date) \/ later_of cur date = date) /\
  (forall c, cur = Some c -> String.leb c (later_of cur date) = true) /\
  String.leb date (later_of cur date) = true.
Proof.
  destruct cur as [c|].
  - destruct (later_of_bounds c date) as (Hc & Hd & [Heq|Heq]).
    + split; [left; by rewrite Heq|]. split; [|done]. by intros ? [= <-].
    + split; [by right|]. split; [|done]. by intros ? [= <-].
  - simpl. split; [by right|]. split; [done|apply leb_refl].
Qed.

Lemma final_pointer_greatest af cur calls p :
  final_pointer af cur calls = Some p ->
  (cur = Some p \/ (af, p) ∈ calls) /\
  (forall c, cur = Some c -> String.leb c p = true) /\
  (forall d, (af, d) ∈ calls -> String.leb d p = true).
Proof.
  revert cur. induction calls as [|[af' date] rest IH]; intros cur Hp;
    simpl in Hp.
  - subst cur. split; [by left|]. split.
    + intros c [= <-]. apply leb_refl.
    + intros d Hd. by apply elem_of_nil in Hd.
  - destruct (IH _ Hp) as (Hin & Hcur & Hrest). clear IH.
    destruct (decide (af' = af)) as [->|Hne].
    + destruct (later_of_greatest cur date) as (Hm & Hc & Hd).
      pose proof (Hcur _ eq_refl) as Hmp.
      split; [|split].
      * destruct Hin as [[= Hin]|Hin]; [|right; by apply elem_of_cons; right].
        destruct Hm as [Hm|Hm].
        -- left. by rewrite Hm, Hin.
        -- right. apply elem_of_cons. left. by rewrite <- Hin, Hm.
      * intros c Hcc. eapply leb_trans; [by apply Hc|done].
      * intros d [[= ->]|Hd']%elem_of_cons; [|by apply Hrest].
        eapply leb_trans; [exact Hd|done].
    + split; [|split].
      * destruct Hin as [Hin|Hin]; [by left|right; by apply elem_of_cons; right].
      * done.
      * intros d [[= ? ?]|Hd']%elem_of_cons; [done|by apply Hrest].
Qed.

Lemma final_pointer_none af cur calls :
  final_pointer af cur calls = None <->
  cur = None /\ forall d, (af, d) ∉ calls.
Proof.
  revert cur. induction calls as [|[af' date] rest IH]; intros cur; simpl.
  - split; [intros ->; split; [done|]; intros d Hd; by apply elem_of_nil in Hd
           |by intros [-> _]].
  - rewrite IH. destruct (decide (af' = af)) as [->|Hne].
    + split; [by intros [? _]|]. intros [_ Hno]. destruct (Hno date).
      apply elem_of_cons. by left.
    + split; intros [-> Hno]; (split; [done|]); intros d Hd.
      * apply elem_of_cons in Hd as [[= ? ?]|Hd]; [done|by apply (Hno d)].
      * apply (Hno d), elem_of_cons. by right.
Qed.

Lemma final_pointer_perm af cur calls calls' :
  calls ≡ₚ calls' -> final_pointer af cur calls = final_pointer af cur calls'.
Proof.
  intros Hperm.
  destruct (final_pointer af cur calls) as [p|] eqn:Hp,
           (final_pointer af cur calls') as [p'|] eqn:Hp'; [| | |done].
  - destruct (final_pointer_greatest _ _ _ _ Hp) as (Hin & Hc & Hd).
    destruct (final_pointer_greatest _ _ _ _ Hp') as (Hin' & Hc' & Hd').
    f_equal. apply String.leb_antisym.
    + destruct Hin as [Hin|Hin]; [by apply Hc'|]. apply Hd'. by rewrite <- Hperm.
    + destruct Hin' as [Hin'|Hin']; [by apply Hc|]. apply Hd. by rewrite Hperm.
  - apply final_pointer_none in Hp' as [-> Hno].
    destruct (final_pointer_greatest _ _ _ _ Hp) as ([?|Hin] & _); [done|].
    destruct (Hno p). by rewrite <- Hperm.
  - apply final_pointer_none in Hp as [-> Hno].
    destruct (final_pointer_greatest _ _ _ _ Hp') as ([?|Hin] & _); [done|].
    destruct (Hno p'). by rewrite Hperm.
Qed.

End PointerMore.

(** X4. After any sequence of calls of [update_last], the pointer of a
    family is the greatest, in the order of strings, of the pointer it had
    and the dates the calls gave for that family: it is one of them and
    none of them is after it. So the order of the calls does not matter. *)
Theorem last_pointer_is_the_greatest_date :
  forall self af calls w,
    (forall p,
       last_of self af (update_last_calls self calls w) = Some p ->
       (last_of self af w = Some p \/ (af, p) ∈ calls) /\
       (forall c, last_of self af w = Some c -> String.leb c p = true) /\
       (forall d, (af, d) ∈ calls -> String.leb d p = true)) /\
    (forall calls',
       calls ≡ₚ calls' ->
       last_of self af (update_last_calls self calls' w)
       = last_of self af (update_last_calls self calls w)).
Proof.
  intros self af calls w. split.
  - intros p. rewrite update_last_calls_final. apply final_pointer_greatest.
  - intros calls' Hperm. rewrite !update_last_calls_final.
    symmetry. by apply final_pointer_perm.
Qed.

Lemma last_pointer_is_the_greatest_date_witness :
  last_of rrc00 v4
    (update_last_calls rrc00
       [(v4, "2024-06-02T00:00:00"); (v6, "2024-06-03T00:00:00");
        (v4, "2024-06-01T00:00:00")] fresh_world)
  = last_of rrc00 v4
      (update_last_calls rrc00
         [(v4, "2024-06-01T00:00:00"); (v4, "2024-06-02T00:00:00");
          (v6, "2024-06-03T00:00:00")] fresh_world).
Proof.
  apply (proj2 (last_pointer_is_the_greatest_date rrc00 v4
                  [(v4, "2024-06-01T00:00:00"); (v4, "2024-06-02T00:00:00");
                   (v6, "2024-06-03T00:00:00")] fresh_world)).
  exact (Permutation_cons_append
           [(v4, "2024-06-02T00:00:00"); (v6, "2024-06-03T00:00:00")]
           (v4, "2024-06-01T00:00:00")).
Defined.

(** X5. [update_last] writes one key at most, the pointer of its family: the
    sets of the database, every other string key (the pointer of the other
    family, the counts), the cache and the log are as they were. *)
Theorem update_last_touches_only_its_pointer :
  forall self af date w,
    let w' := (update_last self af date w).2 in
    Redis.sets (storagedb w') = Redis.sets (storagedb w) /\
    (forall k, k <> last_key self af ->
       Redis.get (storagedb w') k = Redis.get (storagedb w) k) /\
    logged w' = logged w /\
    expected_interval_first w' = expected_interval_first w.
Proof.
  intros self af date w w'. subst w'. rewrite update_last_db. simpl.
  repeat split. intros k Hk. unfold Redis.get. simpl.
  by rewrite lookup_insert_ne.
Qed.

Lemma update_last_touches_only_its_pointer_witness :
  Redis.get
    (storagedb
       (update_last rrc00 v4 "2024-06-02T00:00:00"
          (update_last rrc00 v6 "2024-06-01T00:00:00" fresh_world).2).2)
    (last_key rrc00 v6)
  = Redis.get
      (storagedb (update_last rrc00 v6 "2024-06-01T00:00:00" fresh_world).2)
      (last_key rrc00 v6).
Proof.
  apply (update_last_touches_only_its_pointer rrc00 v4 "2024-06-02T00:00:00").
  by vm_compute.
Defined.

(** * Further properties of the aggregation (lines 110-114) *)

Section AggregateMore.

Context `{Library}.

(** The prefix of an entry is a network for the library. *)
Definition parses (entry : string * string) : Prop :=
  exists n, ip_network entry.1 = Ok n.

Lemma import_entries_returns_iff to_import entries :
  (exists to_import', import_entries to_import entries = Ok to_import')
  <-> Forall parses entries.
Proof.
  revert to_import. induction entries as [|[prefix a] rest IH];
    intros to_import; simpl.
  - split; [constructor|by eexists].
  - destruct (ip_network prefix) as [n|e] eqn:Hn; simpl.
    + rewrite IH. split; [intros Hrest|by inversion 1].
      constructor; [by exists n|done].
    + split; [by intros [? ?]|]. inversion 1 as [|? ? [n Hn'] ?]; simplify_eq.
      simpl in Hn'. congruence.
Qed.

Lemma import_entries_first_failure to_import pre prefix asn post e :
  Forall parses pre ->
  ip_network prefix = Raise e ->
  import_entries to_import (pre ++ (prefix, asn) :: post) = Raise e.
Proof.
  intros Hpre Hbad. revert to_import.
  induction Hpre as [|[p a] pre [n Hn] _ IH]; intros to_import; simpl in *.
  - by rewrite Hbad.
  - rewrite Hn. simpl. apply IH.
Qed.

Lemma import_entries_raises to_import entries e :
  import_entries to_import entries = Raise e ->
  exists pre prefix asn post,
    entries = (pre ++ (prefix, asn) :: post)%list /\
    Forall parses pre /\ ip_network prefix = Raise e.
Proof.
  revert to_import. induction entries as [|[prefix a] rest IH];
    intros to_import; simpl; [done|].
  destruct (ip_network prefix) as [n|e'] eqn:Hn; simpl.
  - intros (pre & p & asn & post & -> & Hpre & Hbad)%IH.
    exists ((prefix, a) :: pre), p, asn, post. split; [done|].
    split; [|done]. constructor; [by exists n|done].
  - intros [= ->]. exists [], prefix, a, rest. by repeat split.
Qed.

Lemma networks_of_nonempty asn entries :
  Forall parses entries ->
  networks_of asn entries <> [] <-> asn ∈ entries.*2.
Proof.
  induction 1 as [|[prefix a] rest [n Hn] _ IH]; simpl in *.
  - split; [done|]. by intros ?%elem_of_nil.
  - rewrite Hn. destruct (decide (a = asn)) as [->|Hne].
    + split; [intros _; by apply elem_of_cons; left|done].
    + rewrite IH. split; [intros ?; by apply elem_of_cons; right|].
      by intros [?|?]%elem_of_cons.
Qed.

Lemma import_entries_dom entries to_import :
  import_entries ∅ entries = Ok to_import ->
  dom to_import = list_to_set entries.*2.
Proof.
  intros Himport. apply set_eq. intros asn.
  rewrite elem_of_dom, elem_of_list_to_set.
  destruct (import_entries_data entries ∅ to_import asn Himport)
    as (_ & _ & ->).
  rewrite lookup_empty, <- networks_of_nonempty.
  - split; [by intros [[? ?]|?]|by right].
  - apply (import_entries_returns_iff ∅). by eexists.
Qed.

Lemma import_entries_prefixes_nonempty entries to_import asn data :
  import_entries ∅ entries = Ok to_import ->
  to_import !! asn = Some data ->
  elements (prefixes data) <> [].
Proof.
  intros Himport Hdata.
  destruct (import_entries_data entries ∅ to_import asn Himport)
    as (Hp & _ & Hs).
  unfold data_of in Hp. rewrite Hdata, lookup_empty in Hp. simpl in Hp.
  destruct (proj1 Hs (mk_is_Some _ _ Hdata)) as [[? Hnone]|Hnets].
  { by rewrite lookup_empty in Hnone. }
  destruct (networks_of asn entries) as [|n nets]; [done|].
  intros Hnil. apply elements_empty_inv in Hnil.
  apply leibniz_equiv in Hnil. rewrite Hnil in Hp.
  rewrite fmap_cons, list_to_set_cons in Hp. set_solver.
Qed.

End AggregateMore.

(** X6. The aggregation of a family returns exactly when every prefix of its
    entries is a network for [ip_network]; otherwise it raises what
    [ip_network] raised at the first prefix that is none, whatever comes
    after it. *)
Theorem aggregation_returns_iff_every_prefix_parses :
  forall (lib : Library) entries,
    ((exists to_import, import_entries ∅ entries = Ok to_import)
     <-> Forall parses entries) /\
    (forall pre prefix asn post e,
       entries = (pre ++ (prefix, asn) :: post)%list ->
       Forall parses pre ->
       ip_network prefix = Raise e ->
       import_entries ∅ entries = Raise e).
Proof.
  intros lib entries. split; [apply import_entries_returns_iff|].
  intros pre prefix asn post e -> Hpre Hbad.
  by apply import_entries_first_failure.
Qed.

Lemma aggregation_returns_iff_every_prefix_parses_witness :
  import_entries ∅ [("10.0.0.0/24", "65000"); ("10.0.0.1/24", "65000");
                    ("10.0.1.0/24", "65001")]
  = Raise ValueError.
Proof.
  apply (proj2 (aggregation_returns_iff_every_prefix_parses plain_text _)
           [("10.0.0.0/24", "65000")] "10.0.0.1/24" "65000"
           [("10.0.1.0/24", "65001")] ValueError).
  - reflexivity.
  - constructor; [|constructor]. eexists. by vm_compute.
  - by vm_compute.
Defined.

(** X7. When the aggregation returns, the ASNs of [to_import] are exactly
    the ASNs of the entries, and each of them has at least one prefix in
    its set. *)
Theorem aggregate_holds_the_asns_of_the_entries :
  forall (lib : Library) entries to_import,
    import_entries ∅ entries = Ok to_import ->
    dom to_import = list_to_set entries.*2 /\
    (forall asn data,
       to_import !! asn = Some data -> elements (prefixes data) <> []).
Proof.
  intros lib entries to_import Himport. split.
  - by apply import_entries_dom.
  - intros asn data. by apply (import_entries_prefixes_nonempty entries).
Qed.

Lemma aggregate_holds_the_asns_of_the_entries_witness :
  exists to_import,
    import_entries ∅ two_prefixes = Ok to_import /\
    dom to_import = list_to_set two_prefixes.*2.
Proof.
  destruct (import_entries ∅ two_prefixes) as [m|e] eqn:Hm;
    [|by vm_compute in Hm].
  exists m. split; [done|].
  apply (aggregate_holds_the_asns_of_the_entries plain_text two_prefixes m Hm).
Defined.

(** * Further properties of the commit of a family and of [load_all] *)

Section CommitMore.

Import Redis RedisFacts.
Context `{Library}.
Variable self : RipeLoader.

Local Arguments String.append : simpl nomatch.

Lemma string_app_assoc a b c : (a +:+ b) +:+ c = a +:+ (b +:+ c).
Proof. induction a as [|x a IH]; simpl; [done|]. by rewrite IH. Qed.

Lemma string_app_length a b :
  String.length (a +:+ b) = (String.length a + String.length b)%nat.
Proof. induction a as [|x a IH]; simpl; [done|]. by rewrite IH. Qed.

Lemma string_app_inj_r a b t : a +:+ t = b +:+ t -> a = b.
Proof.
  revert b. induction a as [|x a IH]; intros [|y b] Heq; simpl in Heq.
  - done.
  - apply (f_equal String.length) in Heq. simpl in Heq.
    rewrite string_app_length in Heq. lia.
  - apply (f_equal String.length) in Heq. simpl in Heq.
    rewrite string_app_length in Heq. lia.
  - injection Heq as -> Heq. f_equal. by apply IH.
Qed.

Lemma prefixes_key_dated af date asn : dated self af date (prefixes_key self af date asn).
Proof. by exists asn. Qed.

Lemma ipcount_key_dated af date asn : dated self af date (ipcount_key self af date asn).
Proof.
  exists (asn +:+ "|ipcount"). unfold ipcount_key, prefixes_key.
  by rewrite !string_app_assoc.
Qed.

Lemma asns_key_dated af date : dated self af date (asns_key self af date).
Proof. by exists "asns". Qed.

Lemma last_key_not_dated af af' date : ~ dated self af date (last_key self af').
Proof.
  unfold last_key. intros [tail Heq].
  assert (af' = af) as -> by (by eapply family_in_key_inj).
  apply (key_tail_inj self) in Heq. simpl in Heq. injection Heq as Heq.
  pose proof (has_bar_app date tail) as Hbar.
  simpl in Hbar. by rewrite <- Heq in Hbar.
Qed.

(** Every key that the queue of a family names, the first command apart,
    belongs to the family and the date. *)
Definition command_dated (af : address_family) (date : string) (c : command)
  : Prop :=
  match c with
  | SADD name _ => dated self af date name
  | SET name _ => dated self af date name
  end.

Lemma queue_family_dated af date to_import :
  Forall (command_dated af date)
    (tail (queue_family self af date to_import)).
Proof.
  unfold queue_family. simpl. apply Forall_cons_2; [apply asns_key_dated|].
  apply Forall_flat_map, Forall_forall. intros [asn data] _.
  repeat apply Forall_cons_2; simpl;
    [apply prefixes_key_dated|apply ipcount_key_dated|done].
Qed.

Lemma strings_foldl_run_other queue d k :
  Forall (fun c => match c with SET name _ => name <> k | SADD _ _ => True end)
    queue ->
  strings (foldl run d queue) !! k = strings d !! k.
Proof.
  intros Hq. revert d. induction Hq as [|[name vs|name v] rest Hc _ IH];
    intros d; simpl; [done| |].
  - by rewrite IH.
  - rewrite IH. simpl. by rewrite lookup_insert_ne.
Qed.

Lemma strings_queue_family af date to_import d k :
  ~ dated self af date k ->
  strings (foldl run d (queue_family self af date to_import)) !! k
  = strings d !! k.
Proof.
  intros Hk. apply strings_foldl_run_other.
  unfold queue_family. apply Forall_cons_2; [done|].
  eapply Forall_impl; [apply queue_family_dated|].
  intros [name vs|name v]; simpl; [done|]. by intros Hd ->.
Qed.

Lemma queue_family_well_formed af date entries to_import :
  import_entries ∅ entries = Ok to_import ->
  forallb well_formed (queue_family self af date to_import)
  = bool_decide (entries <> []).
Proof.
  intros Himport. unfold queue_family. cbn [forallb well_formed andb].
  assert (Hrest : forallb well_formed
                    (flat_map (queue_as self af date) (map_to_list to_import))
                  = true).
  { apply forallb_forall. intros c (item & Hitem & Hc)%in_flat_map.
    destruct item as [asn data]. apply list_elem_of_In in Hitem.
    apply elem_of_map_to_list in Hitem.
    pose proof (import_entries_prefixes_nonempty entries _ _ _ Himport Hitem)
      as Hne.
    unfold queue_as in Hc. simpl in Hc.
    destruct Hc as [<-|[<-|[]]]; simpl; [|done].
    by destruct (elements (prefixes data)). }
  rewrite Hrest, andb_true_r.
  pose proof (import_entries_dom entries to_import Himport) as Hdom.
  destruct entries as [|[p a] rest].
  - simpl in Himport. simplify_eq. by rewrite map_to_list_empty.
  - rewrite bool_decide_eq_true_2 by done.
    destruct (map_to_list to_import) as [|item items] eqn:Hl; [|done].
    apply map_to_list_empty_iff in Hl. subst to_import.
    rewrite dom_empty_L in Hdom. set_solver.
Qed.

(** What [load_family] does, by cases on its entries. *)
Lemma load_family_cases date af entries w :
  let w1 := (logger DEBUG "All keys ready" w).2 in
  match import_entries ∅ entries with
  | Raise e => load_family self date (af, entries) w = (Raise e, w)
  | Ok to_import =>
      match entries with
      | [] => load_family self date (af, entries) w = (Raise ResponseError, w1)
      | _ =>
          load_family self date (af, entries) w
          = update_last self af date
              (with_db w1 (foldl run (storagedb w)
                             (queue_family self af date to_import)))
      end
  end.
Proof.
  intros w1. rewrite load_family_unfold.
  destruct (import_entries ∅ entries) as [to_import|e] eqn:Himport; [|done].
  unfold execute. rewrite (queue_family_well_formed af date entries) by done.
  destruct entries; [done|]. by rewrite bool_decide_eq_true_2.
Qed.

Lemma load_family_pointer date af entries w w' af' :
  load_family self date (af, entries) w = (Ok tt, w') ->
  last_of self af' w'
  = if decide (af = af') then Some (later_of (last_of self af w) date)
    else last_of self af' w.
Proof.
  pose proof (load_family_cases date af entries w) as Hcases.
  cbv zeta in Hcases.
  destruct (import_entries ∅ entries) as [to_import|e];
    [|rewrite Hcases; by intros].
  destruct entries as [|entry rest]; [rewrite Hcases; by intros|].
  rewrite Hcases. clear Hcases. intros Hw.
  set (w2 := with_db _ _) in Hw.
  assert (Hq : forall a, last_of self a w2 = last_of self a w).
  { intros a. unfold last_of, get, w2. simpl.
    apply strings_queue_family, last_key_not_dated. }
  destruct (decide (af = af')) as [<-|Hne].
  - destruct (update_last_last_of self af date w2) as [_ Hl].
    rewrite Hw in Hl. simpl in Hl. by rewrite Hl, Hq.
  - pose proof (update_last_other self af af' date w2 Hne) as Hl.
    rewrite Hw in Hl. simpl in Hl. by rewrite Hl, Hq.
Qed.

End CommitMore.

Section FileMore.

Import Redis RedisFacts.
Context `{Library}.
Variable self : RipeLoader.

Lemma load_file_returns c w w' :
  load_file self c w = (Ok tt, w') ->
  exists routes w1 w2 w3,
    routeview (content c) = Ok routes /\
    storagedb w1 = storagedb w /\
    load_family self (date c) (v4, v4_routes routes) w1 = (Ok tt, w2) /\
    load_family self (date c) (v6, v6_routes routes) w2 = (Ok tt, w3) /\
    storagedb w' = storagedb w3.
Proof.
  rewrite load_file_unfold. cbv zeta.
  destruct (routeview (content c)) as [routes|e]; [|done].
  destruct (load_family _ _ (v4, _) _) as [[[]|e1] w2] eqn:H4; [|done].
  destruct (load_family _ _ (v6, _) _) as [[[]|e2] w3] eqn:H6; [|done].
  unfold logger. intros Hw. simplify_eq.
  exists routes,
    (logger DEBUG "Content loaded"
       (logger INFO ("Loading " +:+ path c) w).2).2, w2, w3.
  by repeat split.
Qed.

Lemma load_file_marks c w w' :
  load_file self c w = (Ok tt, w') ->
  dates_of self w' v4 = {[date c]} ∪ dates_of self w v4 /\
  dates_of self w' v6 = {[date c]} ∪ dates_of self w v6 /\
  forall af, last_of self af w' = Some (later_of (last_of self af w) (date c)).
Proof.
  intros (routes & w1 & w2 & w3 & _ & Hw1 & H4 & H6 & Hw')%load_file_returns.
  pose proof (load_family_dates _ _ _ _ _ _ v6 H4) as H46.
  pose proof (load_family_dates _ _ _ _ _ _ v4 H4) as H44.
  pose proof (load_family_dates _ _ _ _ _ _ v6 H6) as H66.
  pose proof (load_family_dates _ _ _ _ _ _ v4 H6) as H64.
  unfold dates_of. rewrite Hw', H66, H64, H46, H44, Hw1. simpl.
  split; [set_solver|]. split; [set_solver|].
  intros af. unfold last_of in *. rewrite Hw'.
  pose proof (load_family_pointer self _ _ _ _ _ af H6) as H6p.
  pose proof (load_family_pointer self _ _ _ _ _ v6 H4) as H46p.
  pose proof (load_family_pointer self _ _ _ _ _ v4 H4) as H44p.
  unfold last_of in *. rewrite Hw1 in *. simpl in *.
  destruct af; simpl in *; congruence.
Qed.

Lemma loaded_in_dates d date :
  loaded_in self d date = true <->
  date ∈ smembers d (dates_key self v4) /\ date ∈ smembers d (dates_key self v6).
Proof.
  unfold loaded_in, sismember.
  by rewrite andb_true_iff, !bool_decide_eq_true.
Qed.

End FileMore.

(** X8. The commit of a family is all or nothing. With at least one entry
    and every prefix a network, [load_family] returns. When it raises, the
    database is as it was before the call, and what it raises is
    [ResponseError] for a family without entries (the command that stores
    the ASNs has no member) or else what [ip_network] raised at the first
    prefix that is no network. *)
Theorem commit_of_a_family_is_all_or_nothing :
  forall (lib : Library) self date af entries w,
    (entries <> [] -> Forall parses entries ->
     exists w', load_family self date (af, entries) w = (Ok tt, w')) /\
    (forall e w',
       load_family self date (af, entries) w = (Raise e, w') ->
       storagedb w' = storagedb w /\
       ((entries = [] /\ e = ResponseError) \/
        (exists pre prefix asn post,
           entries = (pre ++ (prefix, asn) :: post)%list /\
           Forall parses pre /\ ip_network prefix = Raise e))).
Proof.
  intros lib self date af entries w.
  pose proof (load_family_cases self date af entries w) as Hcases.
  cbv zeta in Hcases. split.
  - intros Hne Hparse.
    apply (import_entries_returns_iff ∅) in Hparse as [to_import Himport].
    rewrite Himport in Hcases. destruct entries; [done|].
    rewrite Hcases, update_last_db. by eexists.
  - intros e w' Hraise. split; [by eapply load_family_raises|].
    destruct (import_entries ∅ entries) as [to_import|e'] eqn:Himport.
    + destruct entries.
      * left. rewrite Hcases in Hraise. by simplify_eq.
      * rewrite Hcases, update_last_db in Hraise. done.
    + right. rewrite Hcases in Hraise. simplify_eq.
      by apply import_entries_raises in Himport.
Qed.

Lemma commit_of_a_family_is_all_or_nothing_witness :
  exists w',
    load_family rrc00 "2024-06-01T00:00:00" (v4, two_prefixes) fresh_world
    = (Ok tt, w').
Proof.
  apply (proj1 (commit_of_a_family_is_all_or_nothing plain_text rrc00
                  "2024-06-01T00:00:00" v4 two_prefixes fresh_world)).
  - done.
  - repeat constructor; eexists; by vm_compute.
Defined.

(** X9. A dump in which one of the two families has no route is never
    loaded: [load_file] raises, the set of loaded dates of v6 is as it was,
    and a date that v6 did not hold stays unloaded, so the file is taken up
    again by every pass. *)
Theorem a_dump_of_one_family_is_never_loaded :
  forall (lib : Library) self c routes w,
    routeview (content c) = Ok routes ->
    v4_routes routes = [] \/ v6_routes routes = [] ->
    exists e w',
      load_file self c w = (Raise e, w') /\
      dates_of self w' v6 = dates_of self w v6 /\
      (date c ∉ dates_of self w v6 ->
       loaded_in self (storagedb w') (date c) = false).
Proof.
  intros lib self c routes w Hroutes Hempty.
  assert (Hraise : exists e w', load_file self c w = (Raise e, w')).
  { rewrite load_file_unfold, Hroutes. cbv zeta.
    set (w1 := (logger DEBUG "Content loaded" _).2).
    pose proof (load_family_cases self (date c) v4 (v4_routes routes) w1)
      as H4. cbv zeta in H4.
    destruct (load_family _ _ (v4, _) _) as [[[]|e1] w2] eqn:Hl4;
      [|by eexists _, _].
    pose proof (load_family_cases self (date c) v6 (v6_routes routes) w2)
      as H6. cbv zeta in H6.
    destruct Hempty as [Hnil|Hnil]; rewrite Hnil in *; simpl in *.
    - done.
    - rewrite H6. by eexists _, _. }
  destruct Hraise as (e & w' & Hraise). exists e, w'. split; [done|].
  destruct (load_file_raises_dates self c w w' e Hraise) as [Hv6 _].
  split; [done|]. intros Hnot.
  destruct (loaded_in self (storagedb w') (date c)) eqn:Hl; [|done].
  apply loaded_in_dates in Hl as [_ Hl]. unfold dates_of in *.
  by rewrite Hv6 in Hl.
Qed.

Lemma a_dump_of_one_family_is_never_loaded_witness :
  exists e w',
    load_file rrc00
      {| path := "/data/ripe/rrc00/2024.06/bview.20240601.0000.gz";
         date := "2024-06-01T00:00:00";
         content :=
           Decoded [table_dump_v2 "10.0.0.0" 24 AF_INET ["64496 65000"]] |}
      fresh_world
    = (Raise e, w') /\
    dates_of rrc00 w' v6 = dates_of rrc00 fresh_world v6 /\
    ("2024-06-01T00:00:00" ∉ dates_of rrc00 fresh_world v6 ->
     loaded_in rrc00 (storagedb w') "2024-06-01T00:00:00" = false).
Proof.
  apply (a_dump_of_one_family_is_never_loaded plain_text rrc00
           {| path := "/data/ripe/rrc00/2024.06/bview.20240601.0000.gz";
              date := "2024-06-01T00:00:00";
              content :=
                Decoded [table_dump_v2 "10.0.0.0" 24 AF_INET ["64496 65000"]] |}
           {| v4_routes := [("10.0.0.0/24", "65000")]; v6_routes := [] |}).
  - reflexivity.
  - by right.
Defined.

(** X10. When [load_file] returns, the date of the file has been added to
    the loaded dates of v4 and of v6, so [already_loaded] holds of it, and
    the pointer of each family is the later of the pointer it had and the
    date. *)
Theorem a_file_that_loads_is_marked_loaded :
  forall (lib : Library) self c w w',
    load_file self c w = (Ok tt, w') ->
    dates_of self w' v4 = {[date c]} ∪ dates_of self w v4 /\
    dates_of self w' v6 = {[date c]} ∪ dates_of self w v6 /\
    already_loaded self (date c) w' = (Ok true, w') /\
    (forall af,
       last_of self af w' = Some (later_of (last_of self af w) (date c))).
Proof.
  intros lib self c w w' Hload.
  destruct (load_file_marks self c w w' Hload) as (H4 & H6 & Hlast).
  split; [done|]. split; [done|]. split; [|done].
  rewrite already_loaded_spec. f_equal. f_equal.
  apply (loaded_in_dates self). unfold dates_of in *. rewrite H4, H6.
  set_solver.
Qed.

Lemma a_file_that_loads_is_marked_loaded_witness :
  let w' := (load_file rrc00 bview_0601 fresh_world).2 in
  already_loaded rrc00 (date bview_0601) w' = (Ok true, w') /\
  last_of rrc00 v6 w' = Some "2024-06-01T00:00:00".
Proof.
  intros w'.
  destruct (a_file_that_loads_is_marked_loaded plain_text rrc00 bview_0601
              fresh_world w') as (_ & _ & Hloaded & Hlast).
  - vm_compute. reflexivity.
  - split; [done|]. by rewrite Hlast.
Defined.

Section PassMore.

Import Redis RedisFacts.
Context `{Library}.
Variable self : RipeLoader.

Lemma stable_grows date f d k :
  stable date f -> smembers d k ⊆ smembers (f d) k.
Proof.
  intros (A & B & Hf). destruct (Hf d k) as [Hs _].
  unfold smembers at 2. rewrite Hs. unfold united.
  destruct (A k); simpl; [set_solver|done].
Qed.

Lemma load_candidate_keeps c w :
  expected_interval_first (load_candidate self c w).2
  = expected_interval_first w /\
  forall k, smembers (storagedb w) k
            ⊆ smembers (storagedb (load_candidate self c w).2) k.
Proof.
  rewrite load_candidate_cases.
  destruct (too_old w c); [done|].
  destruct (_ && _); [done|].
  destruct (uniform_load_file self c) as (r & f & Hf & Hu).
  destruct (Hu w) as (_ & -> & ->). split; [done|].
  intros k. by eapply stable_grows.
Qed.

Lemma load_all_keeps files w :
  expected_interval_first (load_all self files w).2
  = expected_interval_first w /\
  forall k, smembers (storagedb w) k
            ⊆ smembers (storagedb (load_all self files w).2) k.
Proof.
  revert w. induction files as [|c rest IH]; intros w; [done|].
  simpl. unfold mbind, io_bind.
  destruct (load_candidate_keeps c w) as [Hc Hs].
  destruct (load_candidate self c w) as [[[]|e] w1]; simpl in *; [|done].
  destruct (IH w1) as [Hc' Hs']. split; [congruence|].
  intros k. etrans; [apply Hs|apply Hs'].
Qed.

Lemma load_candidate_returns_loaded c w w' :
  load_candidate self c w = (Ok tt, w') ->
  too_old w c = false ->
  loaded_in self (storagedb w') (date c) = true.
Proof.
  rewrite load_candidate_cases. intros Hload Hold. rewrite Hold in Hload.
  fold (loaded_in self (storagedb w) (date c)) in Hload.
  destruct (loaded_in self (storagedb w) (date c)) eqn:Hl.
  - unfold logger in Hload. by simplify_eq.
  - apply load_file_marks in Hload as (H4 & H6 & _).
    apply loaded_in_dates. unfold dates_of in *. rewrite H4, H6. set_solver.
Qed.

Lemma loaded_in_grows d d' date :
  (forall k, smembers d k ⊆ smembers d' k) ->
  loaded_in self d date = true -> loaded_in self d' date = true.
Proof.
  intros Hsub. rewrite !loaded_in_dates. intros [H4 H6].
  split; by eapply Hsub.
Qed.

Lemma load_all_returns_loaded files w w' c :
  load_all self files w = (Ok tt, w') ->
  c ∈ files -> too_old w c = false ->
  loaded_in self (storagedb w') (date c) = true.
Proof.
  revert w. induction files as [|c0 rest IH]; intros w Hall Hc Hold.
  { by apply elem_of_nil in Hc. }
  simpl in Hall. unfold mbind, io_bind in Hall.
  destruct (load_candidate_keeps c0 w) as [Hcache Hsub].
  destruct (load_candidate self c0 w) as [[[]|e] w1] eqn:Hc0; [|done].
  simpl in *.
  apply elem_of_cons in Hc as [->|Hc].
  - apply load_candidate_returns_loaded in Hc0; [|done].
    destruct (load_all_keeps rest w1) as [_ Hsub'].
    rewrite Hall in Hsub'. by eapply loaded_in_grows.
  - apply (IH w1); [done|done|].
    unfold too_old in *. by rewrite Hcache.
Qed.

End PassMore.

(** X11. A file whose date is loaded for both families (and not older than
    the bound) is passed over: whatever the file holds, the step returns,
    the database is as it was, and the only record logged is
    [Already loaded] with the path, at debug level. *)
Theorem loaded_dates_are_passed_over :
  forall (lib : Library) self c w,
    too_old w c = false ->
    loaded_in self (storagedb w) (date c) = true ->
    forall content',
      load_candidate self
        {| path := path c; date := date c; content := content' |} w
      = (Ok tt,
         {| storagedb := storagedb w;
            expected_interval_first := expected_interval_first w;
            logged := logged w ++ [(DEBUG, "Already loaded " +:+ path c)] |}).
Proof.
  intros lib self c w Hold Hloaded content'.
  rewrite load_candidate_cases. unfold too_old in *. simpl.
  rewrite Hold. fold (loaded_in self (storagedb w) (date c)).
  by rewrite Hloaded.
Qed.

Lemma loaded_dates_are_passed_over_witness :
  let w := (load_file rrc00 bview_0601 fresh_world).2 in
  load_candidate rrc00
    {| path := path bview_0601; date := date bview_0601;
       content := Undecodable |} w
  = (Ok tt,
     {| storagedb := storagedb w;
        expected_interval_first := expected_interval_first w;
        logged := logged w
                  ++ [(DEBUG, "Already loaded " +:+ path bview_0601)] |}).
Proof.
  intros w.
  apply (loaded_dates_are_passed_over plain_text rrc00 bview_0601 w).
  - reflexivity.
  - vm_compute. reflexivity.
Defined.

(** X12. When a pass of [load_all] returns, every file of the pass that is
    not older than the bound is loaded for both families, and no set of
    the database has lost a member. *)
Theorem a_pass_that_returns_has_loaded_every_file :
  forall (lib : Library) self files w w',
    load_all self files w = (Ok tt, w') ->
    (forall c, c ∈ files -> too_old w c = false ->
       already_loaded self (date c) w' = (Ok true, w')) /\
    (forall k, Redis.smembers (storagedb w) k
               ⊆ Redis.smembers (storagedb w') k).
Proof.
  intros lib self files w w' Hall. split.
  - intros c Hc Hold. rewrite already_loaded_spec. f_equal. f_equal.
    by apply (load_all_returns_loaded self files w w' c).
  - pose proof (load_all_keeps self files w) as [_ Hsub].
    by rewrite Hall in Hsub.
Qed.

Lemma a_pass_that_returns_has_loaded_every_file_witness :
  let w' := (load_all rrc00 [bview_0601] bound_june).2 in
  already_loaded rrc00 (date bview_0601) w' = (Ok true, w').
Proof.
  intros w'.
  apply (proj1 (a_pass_that_returns_has_loaded_every_file plain_text rrc00
                  [bview_0601] bound_june w' ltac:(vm_compute; reflexivity))).
  - apply elem_of_cons. by left.
  - reflexivity.
Defined.

(** X13. The loader commits v4 before v6, so in a database written by
    [load_all] alone every date loaded for v6 is loaded for v4, pass after
    pass, also when a pass raises; there, a date is loaded as soon as v6
    holds it. *)
Theorem dates_of_v6_are_dates_of_v4 :
  forall (lib : Library) self files w,
    v4_first self w ->
    v4_first self (load_all self files w).2 /\
    (forall date,
       loaded_in self (storagedb (load_all self files w).2) date
       = Redis.sismember (storagedb (load_all self files w).2)
           (dates_key self v6) date).
Proof.
  intros lib self files w Hinv.
  pose proof (load_all_v4_first self files w Hinv) as Hinv'.
  split; [done|]. intros date. unfold loaded_in, Redis.sismember.
  unfold v4_first, dates_of in Hinv'.
  destruct (bool_decide (date ∈ Redis.smembers _ (dates_key self v6))) eqn:H6;
    [|apply andb_false_r].
  apply bool_decide_eq_true in H6. rewrite bool_decide_eq_true_2; [done|].
  by apply Hinv'.
Qed.

Lemma dates_of_v6_are_dates_of_v4_witness :
  v4_first rrc00
    (load_all rrc00 [bview_0602_host_bits; bview_0601] fresh_world).2.
Proof.
  apply (dates_of_v6_are_dates_of_v4 plain_text rrc00
           [bview_0602_host_bits; bview_0601] fresh_world).
  unfold v4_first, dates_of. vm_compute. set_solver.
Defined.

Section StoredMore.

Import Redis RedisFacts.
Context `{Library}.
Variable self : RipeLoader.

Lemma sadd_members_in queue name values k :
  SADD name values ∈ queue -> name = k ->
  list_to_set values ⊆ sadd_members queue k.
Proof.
  intros Hin ->. induction queue as [|c rest IH]; [by apply elem_of_nil in Hin|].
  apply elem_of_cons in Hin as [<-|Hin]; simpl.
  - rewrite decide_True by done. set_solver.
  - specialize (IH Hin). destruct c; simpl; set_solver.
Qed.

Lemma strings_foldl_run_set queue d k v :
  SET k v ∈ queue ->
  (forall v', SET k v' ∈ queue -> v' = v) ->
  strings (foldl run d queue) !! k = Some v.
Proof.
  induction queue as [|c rest IH] using rev_ind; intros Hin Hall.
  { by apply elem_of_nil in Hin. }
  rewrite foldl_app. simpl.
  assert (Hrest : forall v', SET k v' ∈ rest -> v' = v).
  { intros v' Hv'. apply Hall, elem_of_app. by left. }
  destruct c as [name vs|name v'].
  - simpl. apply IH; [|done].
    apply elem_of_app in Hin as [Hin|Hin]; [done|].
    by apply list_elem_of_singleton in Hin.
  - simpl. destruct (decide (name = k)) as [->|Hne].
    + rewrite lookup_insert_eq. f_equal. apply Hall, elem_of_app. right.
      by apply list_elem_of_singleton.
    + rewrite lookup_insert_ne by done. apply IH; [|done].
      apply elem_of_app in Hin as [Hin|Hin]; [done|].
      apply list_elem_of_singleton in Hin. congruence.
Qed.

Lemma prefixes_key_inj af date asn asn' :
  prefixes_key self af date asn = prefixes_key self af date asn' -> asn = asn'.
Proof.
  unfold prefixes_key. intros Heq.
  by repeat apply (inj (String.app _)) in Heq.
Qed.

Lemma ipcount_key_inj af date asn asn' :
  ipcount_key self af date asn = ipcount_key self af date asn' -> asn = asn'.
Proof.
  unfold ipcount_key. intros Heq%string_app_inj_r. by eapply prefixes_key_inj.
Qed.

Lemma queue_family_elem af date to_import c :
  c ∈ queue_family self af date to_import <->
  c = SADD (dates_key self af) [date] \/
  c = SADD (asns_key self af date) (map_to_list to_import).*1 \/
  exists asn data,
    to_import !! asn = Some data /\
    (c = SADD (prefixes_key self af date asn) (elements (prefixes data)) \/
     c = SET (ipcount_key self af date asn) (pretty (ipcount data))).
Proof.
  unfold queue_family. rewrite !elem_of_cons, list_elem_of_In, in_flat_map.
  split.
  - intros [?|[?|([asn data] & Hitem & Hc)]]; [by left|by right; left|].
    right; right. exists asn, data.
    apply list_elem_of_In, elem_of_map_to_list in Hitem. split; [done|].
    unfold queue_as in Hc. simpl in Hc.
    destruct Hc as [Hc|[Hc|[]]]; subst c; auto.
  - intros [?|[?|(asn & data & Hitem & Hc)]]; [by left|by right; left|].
    right; right. exists (asn, data). split.
    + by apply list_elem_of_In, elem_of_map_to_list.
    + unfold queue_as. simpl. destruct Hc as [-> | ->]; auto.
Qed.

(** What the database holds when [load_family] has returned. *)
Lemma load_family_stored date af entries w w' :
  load_family self date (af, entries) w = (Ok tt, w') ->
  exists to_import,
    import_entries ∅ entries = Ok to_import /\
    forall asn data,
      to_import !! asn = Some data ->
      get (storagedb w') (ipcount_key self af date asn)
        = Some (pretty (ipcount data)) /\
      prefixes data ⊆ smembers (storagedb w') (prefixes_key self af date asn) /\
      asn ∈ smembers (storagedb w') (asns_key self af date).
Proof.
  intros Hload.
  pose proof (load_family_cases self date af entries w) as Hcases.
  cbv zeta in Hcases.
  destruct (import_entries ∅ entries) as [to_import|e] eqn:Himport;
    [|by rewrite Hcases in Hload].
  destruct entries as [|entry rest]; [by rewrite Hcases in Hload|].
  rewrite Hcases, update_last_db in Hload. simplify_eq.
  exists to_import. split; [done|]. intros asn data Hdata.
  remember (queue_family self af date to_import) as queue eqn:Hqueue.
  assert (Hin : forall c, c ∈ queue <->
            c = SADD (dates_key self af) [date] \/
            c = SADD (asns_key self af date) (map_to_list to_import).*1 \/
            exists asn data,
              to_import !! asn = Some data /\
              (c = SADD (prefixes_key self af date asn)
                     (elements (prefixes data)) \/
               c = SET (ipcount_key self af date asn)
                     (pretty (ipcount data)))).
  { intros c. rewrite Hqueue. apply queue_family_elem. }
  clear Hqueue Hcases. simpl.
  assert (Hsets : forall k,
            smembers (run (foldl run (storagedb w) queue)
                        (SET (last_key self af)
                           (advance (strings (foldl run (storagedb w) queue)
                                     !! last_key self af) date))) k
            = sadd_members queue k ∪ smembers (storagedb w) k).
  { intros k. rewrite <- smembers_foldl_run. by unfold smembers. }
  split; [|split].
  - unfold get. simpl. rewrite lookup_insert_ne.
    2: { intros Heq. apply (last_key_not_dated self af af date).
         rewrite Heq. apply ipcount_key_dated. }
    apply strings_foldl_run_set.
    + apply Hin. right; right. exists asn, data. auto.
    + intros v' Hv'. apply Hin in Hv'
        as [?|[?|(asn' & data' & Hitem & [?|Hc])]]; try done.
      assert (Hk : ipcount_key self af date asn = ipcount_key self af date asn')
        by congruence.
      assert (Hv : v' = pretty (ipcount data')) by congruence.
      apply ipcount_key_inj in Hk. subst asn'. congruence.
  - rewrite Hsets. etrans; [|apply union_subseteq_l].
    etrans; [|eapply (sadd_members_in queue); [|done]].
    + by rewrite list_to_set_elements_L.
    + apply Hin. right; right. exists asn, data. auto.
  - rewrite Hsets. apply elem_of_union_l.
    eapply (sadd_members_in queue); [|done|].
    + apply Hin. right; by left.
    + apply elem_of_list_to_set, list_elem_of_fmap.
      exists (asn, data). split; [done|]. by apply elem_of_map_to_list.
Qed.

End StoredMore.

(** X14. When the commit of a family returns, the database holds, for every
    ASN of the aggregate, the decimal text of its [ipcount] under the count
    key, all its prefixes in the set of its prefix key, and the ASN itself
    in the set of ASNs of the family and date. *)
Theorem a_commit_stores_the_aggregate :
  forall (lib : Library) self date af entries w w',
    load_family self date (af, entries) w = (Ok tt, w') ->
    exists to_import,
      import_entries ∅ entries = Ok to_import /\
      forall asn data,
        to_import !! asn = Some data ->
        Redis.get (storagedb w') (ipcount_key self af date asn)
          = Some (pretty (ipcount data)) /\
        prefixes data
          ⊆ Redis.smembers (storagedb w') (prefixes_key self af date asn) /\
        asn ∈ Redis.smembers (storagedb w') (asns_key self af date).
Proof. intros lib self date af entries w w'. apply load_family_stored. Qed.

Lemma a_commit_stores_the_aggregate_witness :
  let w' := (load_family rrc00 "2024-06-01T00:00:00" (v4, two_prefixes)
               fresh_world).2 in
  Redis.get (storagedb w')
    (ipcount_key rrc00 v4 "2024-06-01T00:00:00" "65000") = Some "512".
Proof.
  intros w'.
  destruct (a_commit_stores_the_aggregate plain_text rrc00
              "2024-06-01T00:00:00" v4 two_prefixes fresh_world w')
    as (m & Hm & Hstored).
  { vm_compute. reflexivity. }
  destruct (import_entries_aggregate two_prefixes m "65000" Hm)
    as (d & Hd & _ & Hc); [by vm_compute|].
  destruct (Hstored "65000" d Hd) as (-> & _). by rewrite Hc.
Defined.

Section FootprintMore.

Import Redis RedisFacts.
Context `{Library}.
Variable self : RipeLoader.

Local Arguments String.append : simpl nomatch.

Lemma bar_free_prefix_inj a b x y :
  has_bar a = false -> has_bar b = false ->
  a +:+ String "|" x = b +:+ String "|" y -> a = b.
Proof.
  revert b. induction a as [|c a IH]; intros [|c' b] Ha Hb Heq;
    simpl in *.
  - done.
  - injection Heq as <- _. by rewrite Ascii.eqb_refl in Hb.
  - injection Heq as -> _. by rewrite Ascii.eqb_refl in Ha.
  - injection Heq as -> Heq.
    apply orb_false_iff in Ha as [_ Ha]. apply orb_false_iff in Hb as [_ Hb].
    f_equal. by apply IH.
Qed.

Lemma dated_date_inj af af' d d' k :
  has_bar d = false -> has_bar d' = false ->
  dated self af d k -> dated self af' d' k -> d = d'.
Proof.
  intros Hd Hd' [t ->] [t' Heq].
  assert (af = af') as -> by (by eapply family_in_key_inj).
  apply (key_tail_inj self) in Heq. simpl in Heq. injection Heq as Heq.
  by eapply bar_free_prefix_inj.
Qed.

(** The keys a family's commit for a date may write. *)
Definition written_by (af : address_family) (date : string) (k : string)
  : Prop :=
  dated self af date k \/ k = dates_key self af \/ k = last_key self af.

Lemma load_family_footprint date af entries w k :
  ~ written_by af date k ->
  smembers (storagedb (load_family self date (af, entries) w).2) k
  = smembers (storagedb w) k /\
  get (storagedb (load_family self date (af, entries) w).2) k
  = get (storagedb w) k.
Proof.
  intros Hk.
  assert (Hdated : ~ dated self af date k) by (intros ?; apply Hk; by left).
  assert (Hdates : dates_key self af <> k)
    by (intros ?; apply Hk; right; by left).
  assert (Hlast : last_key self af <> k)
    by (intros ?; apply Hk; right; by right).
  pose proof (load_family_cases self date af entries w) as Hcases.
  cbv zeta in Hcases.
  destruct (import_entries ∅ entries) as [to_import|e];
    [|by rewrite Hcases].
  destruct entries as [|entry rest]; [by rewrite Hcases|].
  rewrite Hcases, update_last_db. clear Hcases.
  remember (queue_family self af date to_import) as queue eqn:Hqueue.
  simpl. split.
  - transitivity (smembers (foldl run (storagedb w) queue) k);
      [by unfold smembers|].
    rewrite smembers_foldl_run, Hqueue. unfold queue_family. simpl.
    rewrite (decide_False (P := dates_key self af = k)) by done.
    rewrite (decide_False (P := asns_key self af date = k)).
    2: { intros <-. apply Hdated, asns_key_dated. }
    rewrite (sadd_members_dated self af date); [set_solver| |done].
    apply Forall_flat_map, Forall_forall. intros item _. apply queue_as_dated.
  - unfold get. simpl. rewrite lookup_insert_ne by done.
    rewrite Hqueue. by apply strings_queue_family.
Qed.

Lemma load_file_footprint c w k :
  (forall af, ~ written_by af (date c) k) ->
  smembers (storagedb (load_file self c w).2) k = smembers (storagedb w) k /\
  get (storagedb (load_file self c w).2) k = get (storagedb w) k.
Proof.
  intros Hk. rewrite load_file_unfold. cbv zeta.
  destruct (routeview (content c)) as [routes|e]; [|done].
  set (w1 := (logger DEBUG "Content loaded" _).2).
  pose proof (load_family_footprint (date c) v4 (v4_routes routes) w1 k (Hk v4))
    as [H4s H4g].
  destruct (load_family _ _ (v4, _) _) as [[[]|e1] w2]; [|done].
  pose proof (load_family_footprint (date c) v6 (v6_routes routes) w2 k (Hk v6))
    as [H6s H6g].
  destruct (load_family _ _ (v6, _) _) as [[[]|e2] w3]; simpl in *.
  - by rewrite H6s, H6g.
  - by rewrite H6s, H6g.
Qed.

Lemma load_candidate_footprint c w k :
  (forall af, ~ written_by af (date c) k) ->
  smembers (storagedb (load_candidate self c w).2) k
  = smembers (storagedb w) k /\
  get (storagedb (load_candidate self c w).2) k = get (storagedb w) k.
Proof.
  intros Hk. rewrite load_candidate_cases.
  destruct (too_old w c); [done|].
  destruct (_ && _); [done|]. by apply load_file_footprint.
Qed.

Lemma load_all_footprint files w k :
  Forall (fun c => forall af, ~ written_by af (date c) k) files ->
  smembers (storagedb (load_all self files w).2) k = smembers (storagedb w) k /\
  get (storagedb (load_all self files w).2) k = get (storagedb w) k.
Proof.
  intros Hfiles. revert w. induction Hfiles as [|c rest Hc _ IH]; intros w;
    [done|].
  simpl. unfold mbind, io_bind.
  pose proof (load_candidate_footprint c w k Hc) as [Hs Hg].
  destruct (load_candidate self c w) as [[[]|e] w1]; simpl in *; [|done].
  destruct (IH w1) as [-> ->]. done.
Qed.

Lemma other_date_not_written af af' d d' k :
  has_bar d = false -> has_bar d' = false -> d' <> d ->
  dated self af' d' k -> ~ written_by af d k.
Proof.
  intros Hd Hd' Hne Hk [Hdated|[->| ->]].
  - apply Hne. by eapply dated_date_inj.
  - by apply dates_key_not_dated in Hk.
  - by apply last_key_not_dated in Hk.
Qed.

End FootprintMore.

(** X15. The snapshot of one date is not touched by the loading of files of
    other dates. For dates without a bar in them (as ISO dates are), a pass
    of [load_all] over files none of which has the date [other] leaves
    every key of [other] (the set of ASNs, the prefix set and the count of
    each ASN, of either family) with the members and the value it had,
    whether the pass returns or raises. *)
Theorem snapshots_of_other_dates_are_untouched :
  forall (lib : Library) self files w af other k,
    has_bar other = false ->
    Forall (fun c => has_bar (date c) = false /\ date c <> other) files ->
    dated self af other k ->
    Redis.smembers (storagedb (load_all self files w).2) k
    = Redis.smembers (storagedb w) k /\
    Redis.get (storagedb (load_all self files w).2) k
    = Redis.get (storagedb w) k.
Proof.
  intros lib self files w af other k Hother Hfiles Hk.
  apply load_all_footprint. eapply Forall_impl; [exact Hfiles|].
  intros c [Hc Hne] af'.
  apply (other_date_not_written self af' af (date c) other k); auto.
Qed.

Lemma snapshots_of_other_dates_are_untouched_witness :
  let w := (load_file rrc00 bview_0601 fresh_world).2 in
  Redis.get (storagedb (load_all rrc00 [bview_0602_host_bits] w).2)
    (ipcount_key rrc00 v4 "2024-06-01T00:00:00" "65000")
  = Redis.get (storagedb w)
      (ipcount_key rrc00 v4 "2024-06-01T00:00:00" "65000").
Proof.
  intros w.
  apply (snapshots_of_other_dates_are_untouched plain_text rrc00
           [bview_0602_host_bits] w v4 "2024-06-01T00:00:00").
  - reflexivity.
  - repeat constructor. discriminate.
  - apply ipcount_key_dated.
Defined.

Section AsMore.

Context `{Library}.

Definition of_as (asn : string) (entry : string * string) : bool :=
  bool_decide (entry.2 = asn).

Lemma networks_of_own asn entries :
  networks_of asn (List.filter (of_as asn) entries) = networks_of asn entries.
Proof.
  induction entries as [|[prefix a] rest IH]; [done|].
  cbn [List.filter]. unfold of_as at 1. simpl.
  destruct (decide (a = asn)) as [->|Hne].
  - rewrite bool_decide_eq_true_2 by done. simpl. rewrite IH.
    destruct (ip_network prefix); [|done]. by rewrite decide_True.
  - rewrite bool_decide_eq_false_2 by done. rewrite IH.
    by destruct (ip_network prefix).
Qed.

Lemma lookup_of_data to_import to_import' asn :
  (is_Some (to_import !! asn) <-> is_Some (to_import' !! asn)) ->
  prefixes (data_of to_import asn) = prefixes (data_of to_import' asn) ->
  ipcount (data_of to_import asn) = ipcount (data_of to_import' asn) ->
  to_import !! asn = to_import' !! asn.
Proof.
  unfold data_of. intros Hs Hp Hc.
  destruct (to_import !! asn) as [[p c]|], (to_import' !! asn) as [[p' c']|];
    simpl in *; simplify_eq; try done.
  - destruct (proj1 Hs (mk_is_Some _ _ eq_refl)) as [? ?]. done.
  - destruct (proj2 Hs (mk_is_Some _ _ eq_refl)) as [? ?]. done.
Qed.

Lemma import_entries_own entries to_import asn :
  import_entries ∅ entries = Ok to_import ->
  exists own,
    import_entries ∅ (List.filter (of_as asn) entries) = Ok own /\
    own !! asn = to_import !! asn.
Proof.
  intros Himport.
  assert (Hparse : Forall parses (List.filter (of_as asn) entries)).
  { assert (Hall : Forall parses entries)
      by (apply (import_entries_returns_iff ∅); by eexists).
    apply Forall_forall. intros e He. apply list_elem_of_In, filter_In in He.
    rewrite Forall_forall in Hall. apply Hall, list_elem_of_In, He. }
  apply (import_entries_returns_iff ∅) in Hparse as [own Hown].
  exists own. split; [done|].
  destruct (import_entries_data _ _ _ asn Himport) as (Hp & Hc & Hs).
  destruct (import_entries_data _ _ _ asn Hown) as (Hp' & Hc' & Hs').
  rewrite networks_of_own in Hp', Hc', Hs'.
  apply lookup_of_data.
  - by rewrite Hs, Hs'.
  - by rewrite Hp, Hp'.
  - by rewrite Hc, Hc'.
Qed.

End AsMore.

(** X16. The aggregate of an AS depends on the entries of that AS alone:
    aggregating only its own entries gives the same prefix set and the same
    [ipcount] for it. Prefixes that other ASes announce as well are neither
    taken out of its set nor out of its count. *)
Theorem aggregate_of_an_as_comes_from_its_own_entries :
  forall (lib : Library) entries to_import asn,
    import_entries ∅ entries = Ok to_import ->
    exists own,
      import_entries ∅ (List.filter (of_as asn) entries) = Ok own /\
      own !! asn = to_import !! asn.
Proof. intros lib entries to_import asn. apply import_entries_own. Qed.

Lemma aggregate_of_an_as_comes_from_its_own_entries_witness :
  exists to_import own,
    import_entries ∅ two_prefixes = Ok to_import /\
    import_entries ∅ (List.filter (of_as "65001") two_prefixes) = Ok own /\
    own !! "65001" = to_import !! "65001".
Proof.
  destruct (import_entries ∅ two_prefixes) as [m|e] eqn:Hm;
    [|by vm_compute in Hm].
  destruct (aggregate_of_an_as_comes_from_its_own_entries plain_text
              two_prefixes m "65001" Hm) as (own & Hown & Heq).
  by exists m, own.
Defined.

Section InitMore.

Import Redis RedisFacts.

Lemma loader_key_is_not_prefixes self af :
  dates_key self af <> "prefixes".
Proof. unfold dates_key, key_prefix. by cbv [String.append]. Qed.

End InitMore.

(** X17. Constructing a loader adds its key prefix, [ripe_] followed by the
    collector, to the set [prefixes] and writes nothing else: every other
    set and every string are as they were, so the loaded dates of every
    loader are as they were; constructing it a second time changes
    nothing. *)
Theorem a_new_loader_registers_its_prefix :
  forall collector w,
    let self := {| collector := collector |} in
    let w' := (__init__ collector w).2 in
    (__init__ collector w).1 = Ok self /\
    Redis.smembers (storagedb w') "prefixes"
    = {[key_prefix self]} ∪ Redis.smembers (storagedb w) "prefixes" /\
    (forall k, k <> "prefixes" ->
       Redis.smembers (storagedb w') k = Redis.smembers (storagedb w) k) /\
    Redis.strings (storagedb w') = Redis.strings (storagedb w) /\
    (forall other date,
       loaded_in other (storagedb w') date
       = loaded_in other (storagedb w) date) /\
    storagedb (__init__ collector w').2 = storagedb w'.
Proof.
  intros collector w self w'. subst w'. unfold __init__. simpl.
  assert (Hother : forall k, k <> "prefixes" ->
            Redis.smembers
              (Redis.run (storagedb w) (Redis.SADD "prefixes" [key_prefix self])) k
            = Redis.smembers (storagedb w) k).
  { intros k Hk. unfold Redis.smembers. simpl. by rewrite lookup_insert_ne. }
  split; [done|]. split; [|split; [|split; [|split]]].
  - unfold Redis.smembers. simpl. rewrite lookup_insert_eq. simpl. set_solver.
  - exact Hother.
  - done.
  - intros other date. unfold loaded_in, Redis.sismember.
    by rewrite !Hother by apply loader_key_is_not_prefixes.
  - apply (stable_idem "" (fun d => Redis.run d
                             (Redis.SADD "prefixes" [key_prefix self]))).
    apply stable_run.
Qed.

Lemma a_new_loader_registers_its_prefix_witness :
  Redis.smembers (storagedb (__init__ "rrc00" fresh_world).2) "ripe_rrc00|v4|dates"
  = Redis.smembers (storagedb fresh_world) "ripe_rrc00|v4|dates".
Proof.
  apply (a_new_loader_registers_its_prefix "rrc00" fresh_world).
  discriminate.
Defined.
